(** * StateProduct: the CSV ingestion pipeline of [src/utils.ts]

    A shallow embedding of [parseCSV] (with its local helpers [parseLine]
    and [cleanPrice]) and of the JavaScript built-ins it calls, followed by
    the properties of the catalog it returns.

    Conventions of the embedding.
    - A JavaScript string is the list of its code units.  The alphabet is
      the 8-bit range U+0000..U+00FF ([ascii]); [trim], [\s],
      [toLowerCase] and [parseFloat] are the ECMAScript functions
      restricted to that range.
    - A JavaScript number is an IEEE 754 binary64 value, [spec_float] at
      precision 53 and maximal exponent 1024.
    - A value that may be [undefined] (an array read past the end) is an
      [option]; [None] is [undefined].
    - [String.prototype.localeCompare] is defined by the host; it is a
      parameter of the development. *)

From Stdlib Require Import List Bool Arith ZArith NArith Lia.
From Stdlib Require Import Ascii String.
From Stdlib Require Import SpecFloat.
From Stdlib Require Import Sorted Permutation.
Import ListNotations.
Open Scope list_scope.

Set Implicit Arguments.

(** ** Strings *)

Definition jsstring := list ascii.

Definition lit (s : string) : jsstring := list_ascii_of_string s.

Definition code (c : ascii) : N := N_of_ascii c.

Definition jsstring_eqb (a b : jsstring) : bool :=
  if list_eq_dec ascii_dec a b then true else false.

Definition isEmpty (s : jsstring) : bool :=
  match s with [] => true | _ :: _ => false end.

(** WhiteSpace and LineTerminator code units below U+0100: TAB, LF, VT,
    FF, CR, SP and NBSP.  This is the set removed by [trim], matched by
    [\s] and skipped by [parseFloat]. *)
Definition isWhiteSpace (c : ascii) : bool :=
  let n := code c in
  ((9 <=? n) && (n <=? 13) || (n =? 32) || (n =? 160))%N.

Fixpoint trimStart (s : jsstring) : jsstring :=
  match s with
  | [] => []
  | c :: rest => if isWhiteSpace c then trimStart rest else s
  end.

Definition trimEnd (s : jsstring) : jsstring := rev (trimStart (rev s)).

Definition trim (s : jsstring) : jsstring := trimEnd (trimStart s).

(** [toLowerCase] on U+0000..U+00FF: A-Z and the Latin-1 capitals
    U+00C0..U+00DE (U+00D7, the multiplication sign, excepted) move up by
    32; every other code unit is unchanged. *)
Definition lowerChar (c : ascii) : ascii :=
  let n := code c in
  if ((65 <=? n) && (n <=? 90)
      || (192 <=? n) && (n <=? 222) && negb (n =? 215))%N
  then ascii_of_N (n + 32) else c.

Definition toLowerCase (s : jsstring) : jsstring := map lowerChar s.

Fixpoint startsWith (s prefix : jsstring) {struct prefix} : bool :=
  match prefix, s with
  | [], _ => true
  | p :: prefix', c :: s' => Ascii.eqb c p && startsWith s' prefix'
  | _ :: _, [] => false
  end.

Definition LF : ascii := "010"%char.
Definition CR : ascii := "013"%char.
Definition DQUOTE : ascii := "034"%char.
Definition COMMA : ascii := ","%char.

(** [s.split(/\r?\n/)]: a separator is LF, or CR immediately followed by
    LF; a CR not followed by LF is an ordinary character.  [cur] is the
    line being accumulated. *)
Fixpoint splitLines_from (cur : jsstring) (s : jsstring) : list jsstring :=
  match s with
  | [] => [cur]
  | c :: rest =>
      if Ascii.eqb c LF then cur :: splitLines_from [] rest
      else if Ascii.eqb c CR then
        match rest with
        | c' :: rest' =>
            if Ascii.eqb c' LF then cur :: splitLines_from [] rest'
            else splitLines_from (cur ++ [c]) rest
        | [] => splitLines_from (cur ++ [c]) rest
        end
      else splitLines_from (cur ++ [c]) rest
  end.

Definition splitLines (s : jsstring) : list jsstring := splitLines_from [] s.

(** ** The row tokenizer, [parseLine] *)

(** The [for] loop of [parseLine] over the characters still to read; the
    escaped quote consumes two characters ([i++] in the body). *)
Fixpoint parseLine_loop (line : jsstring) (cur : jsstring) (inQuotes : bool)
    (result : list jsstring) : list jsstring :=
  match line with
  | [] => result ++ [trim cur]
  | char :: rest =>
      if Ascii.eqb char DQUOTE then
        match inQuotes, rest with
        | true, next :: rest' =>
            if Ascii.eqb next DQUOTE
            then parseLine_loop rest' (cur ++ [DQUOTE]) inQuotes result
            else parseLine_loop rest cur (negb inQuotes) result
        | _, _ => parseLine_loop rest cur (negb inQuotes) result
        end
      else if Ascii.eqb char COMMA && negb inQuotes then
        parseLine_loop rest [] inQuotes (result ++ [trim cur])
      else parseLine_loop rest (cur ++ [char]) inQuotes result
  end.

Definition parseLine (line : jsstring) : list jsstring :=
  parseLine_loop line [] false [].

(** ** Numbers *)

Definition number := spec_float.

Definition prec : Z := 53.
Definition emax : Z := 1024.

Definition NaN : number := S754_nan.
Definition zero : number := S754_zero false.

(** The double nearest to [m * 2^e]; exact whenever [m] fits in 53 bits. *)
Definition dyadic (m e : Z) : number := binary_normalize prec emax m e false.

(** ToBoolean on a number: NaN, +0 and -0 are falsy. *)
Definition truthyNumber (x : number) : bool :=
  match x with
  | S754_nan | S754_zero _ => false
  | _ => true
  end.

(** [x || d] on numbers. *)
Definition orNumber (x d : number) : number :=
  if truthyNumber x then x else d.

(** [x >= y] on numbers (false when a side is NaN). *)
Definition geNumber (x y : number) : bool := SFleb y x.

(** *** [parseFloat] *)

Definition isDigit (c : ascii) : bool :=
  ((48 <=? code c) && (code c <=? 57))%N.

(** The longest run of decimal digits at the front, and what follows it. *)
Fixpoint spanDigits (s : jsstring) : jsstring * jsstring :=
  match s with
  | c :: rest =>
      if isDigit c
      then let '(ds, tl) := spanDigits rest in (c :: ds, tl)
      else ([], s)
  | [] => ([], [])
  end.

(** The mathematical value of a run of decimal digits. *)
Definition digitsValue (ds : jsstring) : N :=
  fold_left (fun acc c => (10 * acc + (code c - 48))%N) ds 0%N.

(** An optional sign: whether it is a minus, and the rest. *)
Definition spanSign (s : jsstring) : bool * jsstring :=
  match s with
  | c :: rest =>
      if Ascii.eqb c "-" then (true, rest)
      else if Ascii.eqb c "+" then (false, rest)
      else (false, s)
  | [] => (false, s)
  end.

(** ExponentPart, when present and complete ([e] or [E], an optional
    sign, at least one digit); 0 otherwise, the prefix then ending before
    the [e]. *)
Definition exponentPart (s : jsstring) : Z :=
  match s with
  | c :: rest =>
      if Ascii.eqb c "e" || Ascii.eqb c "E" then
        let '(neg, rest1) := spanSign rest in
        let '(ds, _) := spanDigits rest1 in
        if isEmpty ds then 0%Z
        else if neg then (- Z.of_N (digitsValue ds))%Z
        else Z.of_N (digitsValue ds)
      else 0%Z
  | [] => 0%Z
  end.

Definition pow10 (k : Z) : positive := Z.to_pos (10 ^ k).

(** The double nearest to [(-1)^neg * m * 10^e] (ties to even), by one
    correctly rounded division of [m * 10^max(e,0)] by [10^max(-e,0)]. *)
Definition decimalToNumber (neg : bool) (m : N) (e : Z) : number :=
  match m with
  | N0 => S754_zero neg
  | Npos p =>
      SFdiv prec emax
        (S754_finite neg (p * pow10 (Z.max e 0)) 0)
        (S754_finite false (pow10 (Z.max (- e) 0)) 0)
  end.

(** [parseFloat(s)]: skip leading white space, then read the longest
    prefix that is a StrDecimalLiteral,
      sign? ( Infinity | digits . digits? exponent? | . digits exponent?
            | digits exponent? ),
    and round its value to a double; NaN when there is no such prefix. *)
Definition parseFloat (input : jsstring) : number :=
  let '(neg, s1) := spanSign (trimStart input) in
  if startsWith s1 (lit "Infinity") then S754_infinity neg
  else
    let '(intDigits, s2) := spanDigits s1 in
    let '(fracDigits, s3) :=
      match s2 with
      | c :: rest => if Ascii.eqb c "." then spanDigits rest else ([], s2)
      | [] => ([], s2)
      end in
    if isEmpty intDigits && isEmpty fracDigits then NaN
    else
      decimalToNumber neg (digitsValue (intDigits ++ fracDigits))
        (exponentPart s3 - Z.of_nat (List.length fracDigits)).

(** ToString on a value that is a string or [undefined]. *)
Definition ToString (v : option jsstring) : jsstring :=
  match v with
  | Some s => s
  | None => lit "undefined"
  end.

(** ** The model of [types.ts] *)

Module ProductVariant.
Record t := mk {
  sku : jsstring;
  description : jsstring;
  unit : jsstring;
  stdPrice : number;
  floorPrice : number;
  givePrice : number;
  gsaPrice : number;
  weight : number;
  productLine : jsstring;
  family : jsstring
}.
End ProductVariant.

Module ProductGroup.
Record t := mk {
  parentName : jsstring;
  family : jsstring;
  variants : list ProductVariant.t
}.
End ProductGroup.

Import ProductGroup(parentName, variants).
Import ProductVariant(sku, stdPrice, floorPrice, givePrice, gsaPrice, weight).

(** ** [cleanPrice] *)

(** [val.replace(/[$,\s]/g, '')] *)
Definition stripPrice (val : jsstring) : jsstring :=
  filter (fun c => negb (Ascii.eqb c "$" || Ascii.eqb c COMMA || isWhiteSpace c)) val.

(** [!val] holds for [undefined] and for the empty string. *)
Definition cleanPrice (val : option jsstring) : number :=
  match val with
  | None | Some [] => zero
  | Some s => orNumber (parseFloat (stripPrice s)) zero
  end.

(** ** The [groups] object *)

(** [groups] is an ordinary object, created by [{}], whose own properties
    are the groups, kept here in the order of their creation.  Its
    prototype is [Object.prototype], so a read [groups[k]] of a key that
    is not an own property finds an inherited member when [k] names
    one. *)
Definition groupsObject := list (jsstring * ProductGroup.t).

Definition objectPrototypeKeys : list jsstring :=
  [lit "constructor"; lit "hasOwnProperty"; lit "isPrototypeOf";
   lit "propertyIsEnumerable"; lit "toLocaleString"; lit "toString";
   lit "valueOf"; lit "__proto__"; lit "__defineGetter__";
   lit "__defineSetter__"; lit "__lookupGetter__"; lit "__lookupSetter__"].

Inductive property :=
| Own (g : ProductGroup.t)   (* a group stored by [parseCSV] *)
| Inherited                  (* a member of [Object.prototype]: truthy, without [variants] *)
| Undefined.

Fixpoint getOwn (groups : groupsObject) (k : jsstring) : option ProductGroup.t :=
  match groups with
  | [] => None
  | (k', g) :: rest => if jsstring_eqb k' k then Some g else getOwn rest k
  end.

Definition isPrototypeKey (k : jsstring) : bool :=
  existsb (jsstring_eqb k) objectPrototypeKeys.

(** [groups[k]] *)
Definition getProperty (groups : groupsObject) (k : jsstring) : property :=
  match getOwn groups k with
  | Some g => Own g
  | None => if isPrototypeKey k then Inherited else Undefined
  end.

(** Replace the group stored under the own key [k]. *)
Fixpoint setOwn (groups : groupsObject) (k : jsstring) (g : ProductGroup.t)
  : groupsObject :=
  match groups with
  | [] => []
  | (k', g') :: rest =>
      if jsstring_eqb k' k then (k', g) :: rest else (k', g') :: setOwn rest k g
  end.

(** ** The catalog aggregator, [parseCSV] *)

(** [v || d] on a value that is a string or [undefined]: the empty string
    and [undefined] are falsy. *)
Definition orString (v : option jsstring) (d : jsstring) : jsstring :=
  match v with
  | Some (c :: s) => c :: s
  | _ => d
  end.

(** [parts[i]] where the surrounding code has established [i < parts.length]
    (every use is below the guard [parts.length < 11]); the default is never
    returned there. *)
Definition field (parts : list jsstring) (i : nat) : jsstring := nth i parts [].

Definition parentNameOf (parts : list jsstring) : jsstring :=
  orString (nth_error parts 2) (lit "Uncategorized").

Definition familyOf (parts : list jsstring) : jsstring :=
  orString (nth_error parts 1) (lit "General").

Definition skuOf (parts : list jsstring) : jsstring := field parts 3.

(** The object literal pushed onto [variants]. *)
Definition variantOf (parts : list jsstring) : ProductVariant.t :=
  {| ProductVariant.productLine := field parts 0;
     ProductVariant.family := familyOf parts;
     ProductVariant.sku := skuOf parts;
     ProductVariant.description := field parts 4;
     ProductVariant.unit := field parts 5;
     ProductVariant.stdPrice := cleanPrice (nth_error parts 6);
     ProductVariant.floorPrice := cleanPrice (nth_error parts 8);
     ProductVariant.givePrice := cleanPrice (nth_error parts 9);
     ProductVariant.gsaPrice := cleanPrice (nth_error parts 10);
     ProductVariant.weight :=
       orNumber (parseFloat (ToString (nth_error parts 13))) zero |}.

(** [variants.some(v => v.sku === sku)] *)
Definition hasSku (vs : list ProductVariant.t) (s : jsstring) : bool :=
  existsb (fun v => jsstring_eqb (sku v) s) vs.

(** How one iteration of the [for] loop ends. *)
Inductive iteration :=
| Next (groups : groupsObject)   (* falls through, or [continue] *)
| Break
| Throw.                         (* a TypeError escapes [parseCSV] *)

(** The body of the [for] loop for the line [lines[i]]. *)
Definition processLine (groups : groupsObject) (rawLine : jsstring) : iteration :=
  let line := trim rawLine in
  if startsWith (toLowerCase line) (lit "scsclass") then Break
  else if isEmpty line
          || startsWith (toLowerCase line) (lit "productlinedescription")
  then Next groups
  else
    let parts := parseLine line in
    if List.length parts <? 11 then Next groups
    else
      let parentName := parentNameOf parts in
      let family := familyOf parts in
      let groups1 :=
        match getProperty groups parentName with
        | Undefined =>
            groups ++ [(parentName, ProductGroup.mk parentName family [])]
        | _ => groups
        end in
      let sku := skuOf parts in
      match getProperty groups1 parentName with
      | Own g =>
          if hasSku (variants g) sku then Next groups1
          else
            Next (setOwn groups1 parentName
                    (ProductGroup.mk (ProductGroup.parentName g) (ProductGroup.family g)
                       (variants g ++ [variantOf parts])))
      | _ => Throw   (* [groups[parentName].variants] is [undefined] *)
      end.

(** The [for] loop from the line at hand to the end; [None] when an
    iteration throws. *)
Fixpoint processLines (groups : groupsObject) (lines : list jsstring)
  : option groupsObject :=
  match lines with
  | [] => Some groups
  | l :: rest =>
      match processLine groups l with
      | Next groups' => processLines groups' rest
      | Break => Some groups
      | Throw => None
      end
  end.

(** *** [Object.values] and [Array.prototype.sort] *)

(** A stable insertion sort by a three-way comparator: an element is put
    in front of the first element it does not compare greater than. *)
Section Sort.
Variable A : Type.
Variable cmp : A -> A -> Z.

Fixpoint insertBy (x : A) (l : list A) : list A :=
  match l with
  | [] => [x]
  | y :: l' => if (cmp x y <=? 0)%Z then x :: l else y :: insertBy x l'
  end.

Definition sortBy (l : list A) : list A := fold_right insertBy [] l.
End Sort.

(** An array index: the canonical decimal form of an integer below
    [2^32 - 1]. *)
Definition arrayIndex (k : jsstring) : option N :=
  match k with
  | [] => None
  | c :: rest =>
      if forallb isDigit k && (isEmpty rest || negb (Ascii.eqb c "0"))
         && (digitsValue k <? 4294967295)%N
      then Some (digitsValue k) else None
  end.

Definition isArrayIndex (k : jsstring) : bool :=
  match arrayIndex k with Some _ => true | None => false end.

Definition indexOf (k : jsstring) : Z :=
  match arrayIndex k with Some n => Z.of_N n | None => 0%Z end.

(** The own keys in the order [Object.values] visits them: the array
    indices by ascending value, then the other keys in creation order. *)
Definition ownEntries (groups : groupsObject) : groupsObject :=
  sortBy (fun a b => (indexOf (fst a) - indexOf (fst b))%Z)
         (filter (fun e => isArrayIndex (fst e)) groups)
  ++ filter (fun e => negb (isArrayIndex (fst e))) groups.

Definition objectValues (groups : groupsObject) : list ProductGroup.t :=
  map snd (ownEntries groups).

(** *** [parseCSV] *)

Inductive outcome :=
| Returns (catalog : list ProductGroup.t)
| Throws.

Section ParseCSV.
(** [a.localeCompare(b)]: negative, zero or positive. *)
Variable localeCompare : jsstring -> jsstring -> Z.

Definition byParentName (a b : ProductGroup.t) : Z :=
  localeCompare (parentName a) (parentName b).

Definition parseCSV (csv : jsstring) : outcome :=
  if isEmpty csv then Returns []
  else
    let lines := splitLines (trim csv) in
    if List.length lines <? 2 then Returns []
    else
      match processLines [] (skipn 1 lines) with
      | Some groups => Returns (sortBy byParentName (objectValues groups))
      | None => Throws
      end.
End ParseCSV.

(** ** The document as the aggregator reads it *)

(** The lines of the document, [csv.trim().split(/\r?\n/)]. *)
Definition linesOf (csv : jsstring) : list jsstring := splitLines (trim csv).

(** The test of the [break]: the section header that ends the table. *)
Definition isSentinel (rawLine : jsstring) : bool :=
  startsWith (toLowerCase (trim rawLine)) (lit "scsclass").

(** The fields of a line that gets past both [continue] guards; [None]
    for the sentinel, a blank line, a repeated header and a short row. *)
Definition dataRow (rawLine : jsstring) : option (list jsstring) :=
  let line := trim rawLine in
  if isSentinel rawLine then None
  else if isEmpty line
          || startsWith (toLowerCase line) (lit "productlinedescription")
  then None
  else if List.length (parseLine line) <? 11 then None
  else Some (parseLine line).

(** The data rows of a run of lines, up to the first sentinel. *)
Fixpoint dataRows (lines : list jsstring) : list (list jsstring) :=
  match lines with
  | [] => []
  | l :: rest =>
      if isSentinel l then []
      else match dataRow l with
           | Some parts => parts :: dataRows rest
           | None => dataRows rest
           end
  end.

(** The data rows of a document: line 0 is the header and is not read. *)
Definition documentRows (csv : jsstring) : list (list jsstring) :=
  dataRows (skipn 1 (linesOf csv)).

(** What the loop body does with the fields of a data row: the group is
    created if need be, and the variant pushed unless its sku is there. *)
Definition addRow (groups : groupsObject) (parts : list jsstring)
  : option groupsObject :=
  let p := parentNameOf parts in
  match getProperty groups p with
  | Inherited => None
  | Undefined =>
      Some (groups ++ [(p, ProductGroup.mk p (familyOf parts) [variantOf parts])])
  | Own g =>
      if hasSku (variants g) (skuOf parts) then Some groups
      else Some (setOwn groups p
                   (ProductGroup.mk (parentName g) (ProductGroup.family g)
                      (variants g ++ [variantOf parts])))
  end.

Fixpoint addRows (groups : groupsObject) (rows : list (list jsstring))
  : option groupsObject :=
  match rows with
  | [] => Some groups
  | r :: rest =>
      match addRow groups r with
      | Some groups' => addRows groups' rest
      | None => None
      end
  end.

(** *** The catalog in closed form *)

Section FirstBy.
Variable A : Type.
Variable key : A -> jsstring.

Definition sameKey (x y : A) : bool := jsstring_eqb (key y) (key x).

(** The first element of each key, in the order of first occurrence. *)
Fixpoint firstBy (l : list A) : list A :=
  match l with
  | [] => []
  | x :: rest => x :: filter (fun y => negb (sameKey x y)) (firstBy rest)
  end.
End FirstBy.

(** The rows of the group named [k]. *)
Definition rowsOfParent (k : jsstring) (rows : list (list jsstring))
  : list (list jsstring) :=
  filter (fun r => jsstring_eqb (parentNameOf r) k) rows.

(** The group opened by the row [first]: its name and family come from
    [first], its variants from the rows of that parent, one per sku. *)
Definition groupFrom (rows : list (list jsstring)) (first : list jsstring)
  : ProductGroup.t :=
  ProductGroup.mk (parentNameOf first) (familyOf first)
    (map variantOf (firstBy skuOf (rowsOfParent (parentNameOf first) rows))).

(** One group per parent name, in the order the parents first appear. *)
Definition groupsOf (rows : list (list jsstring)) : groupsObject :=
  map (fun first => (parentNameOf first, groupFrom rows first))
      (firstBy parentNameOf rows).

(** The catalog of a list of data rows. *)
Definition catalogOf (localeCompare : jsstring -> jsstring -> Z)
    (rows : list (list jsstring)) : list ProductGroup.t :=
  sortBy (byParentName localeCompare) (objectValues (groupsOf rows)).

(** A row whose parent name is a member of [Object.prototype]: the read
    [groups[parentName]] finds that member instead of a group. *)
Definition throwingRow (r : list jsstring) : bool := isPrototypeKey (parentNameOf r).

(** ** Vocabulary of the statements *)

(** A number that is NaN or carries the sign [s] ([true] is minus). *)
Definition signed (s : bool) (x : number) : Prop :=
  x = S754_nan \/ x = S754_zero s \/ x = S754_infinity s
  \/ exists m e, x = S754_finite s m e.

(** The text starts, after white space, with a minus sign. *)
Definition leadingMinus (text : jsstring) : bool :=
  startsWith (trimStart text) (lit "-").

(** [x] is what [parseFloat(text) || 0] evaluates to: never NaN, 0 when
    [text] does not parse, and not below 0 unless [text] starts with a
    minus sign. *)
Definition clampedParse (text : jsstring) (x : number) : Prop :=
  x = orNumber (parseFloat text) zero
  /\ x <> NaN
  /\ (parseFloat text = NaN -> x = zero)
  /\ (leadingMinus text = false -> geNumber x zero = true).

(** Lines joined by LF into a document. *)
Fixpoint joinLines (lines : list jsstring) : jsstring :=
  match lines with
  | [] => []
  | [l] => l
  | l :: rest => l ++ LF :: joinLines rest
  end.

(** ** Comparing strings by code unit *)

(** A comparator that [localeCompare] can be instantiated with: the
    lexicographic order of the code units. *)
Fixpoint codeUnitCompare (a b : jsstring) : Z :=
  match a, b with
  | [], [] => 0
  | [], _ :: _ => -1
  | _ :: _, [] => 1
  | x :: a', y :: b' =>
      if (code x <? code y)%N then -1
      else if (code y <? code x)%N then 1
      else codeUnitCompare a' b'
  end.

(** ** Sample documents *)

Definition header : jsstring :=
  lit "ProductLineDescription,Family,Parent,SKU,Description,UOM,STD,,Floor,Give,GSA,,,Weight".

Definition rowZeta1 : jsstring :=
  lit "Paint,Interior,Zeta,Z1,Zeta quart,EA,$10.00,,8,7,6,,,1.5".
Definition rowAlpha1 : jsstring :=
  lit "Paint,Exterior,Alpha,A1,Alpha quart,EA,$20.00,,18,17,16,,,2".
(** Eleven fields, and another family than the row that opens Zeta. *)
Definition rowZeta2 : jsstring :=
  lit "Paint,Trim,Zeta,Z2,Zeta gallon,EA,$30.00,,28,27,26".
(** The sku of [rowZeta1] once more, in the same group. *)
Definition rowZeta1Again : jsstring :=
  lit "Paint,Interior,Zeta,Z1,Zeta quart repriced,EA,$99.00,,8,7,6,,,1.5".
Definition sentinelLine : jsstring := lit "SCSClass,Code,Description".
Definition rowOmega1 : jsstring :=
  lit "Paint,Interior,Omega,O1,Omega quart,EA,$5.00,,4,3,2,,,1".
Definition rowNegative : jsstring :=
  lit "Paint,Interior,Acme,A1,Quart,EA,-5,,4,3,2,,,1.5".
(** Eleven fields, under a parent name that [Object.prototype] defines. *)
Definition rowConstructor : jsstring :=
  lit "Paint,Interior,constructor,C1,Quart,EA,5,,4,3,2".

Definition catalogDoc : jsstring :=
  joinLines [header; rowZeta1; rowAlpha1; rowZeta2; rowZeta1Again].
Definition catalogDocOnce : jsstring :=
  joinLines [header; rowZeta1; rowAlpha1; rowZeta2].
Definition sentinelDoc : jsstring :=
  joinLines [header; rowZeta1; sentinelLine; rowOmega1].
Definition sentinelDocCut : jsstring :=
  joinLines [header; rowZeta1; sentinelLine].
Definition sentinelFirstDoc : jsstring := joinLines [sentinelLine; rowOmega1].
Definition negativePriceDoc : jsstring := joinLines [header; rowNegative].
Definition constructorDoc : jsstring := joinLines [header; rowConstructor].

Definition sampleCatalog : list ProductGroup.t :=
  catalogOf codeUnitCompare (documentRows catalogDoc).
Definition zetaGroup : ProductGroup.t :=
  groupFrom (documentRows catalogDoc) (parseLine rowZeta1).
Definition zetaVariant : ProductVariant.t := variantOf (parseLine rowZeta1).

(** ** Vocabulary of further statements *)

(** No white space at either end. *)
Definition isTrimmed (s : jsstring) : bool :=
  match s with
  | [] => true
  | c :: rest => negb (isWhiteSpace c) && negb (isWhiteSpace (last rest c))
  end.

(** Strings joined by a separator. *)
Fixpoint joinWith (sep : jsstring) (parts : list jsstring) : jsstring :=
  match parts with
  | [] => []
  | [p] => p
  | p :: rest => p ++ sep ++ joinWith sep rest
  end.

(** A cell written between quotes, each quote of its text doubled. *)
Definition quoteField (f : jsstring) : jsstring :=
  DQUOTE :: flat_map (fun c => if Ascii.eqb c DQUOTE then [DQUOTE; DQUOTE] else [c]) f
  ++ [DQUOTE].

(** A cell as a writer of such a file puts it on a line: between quotes
    when its text holds a comma or a quote, as it is otherwise. *)
Definition encodeField (f : jsstring) : jsstring :=
  if existsb (fun c => Ascii.eqb c COMMA || Ascii.eqb c DQUOTE) f
  then quoteField f else f.

(** ** The component state of [App.tsx] *)

(** [s.includes(t)] *)
Fixpoint includes (s t : jsstring) : bool :=
  startsWith s t
  || match s with
     | [] => false
     | _ :: s' => includes s' t
     end.

(** The memo [productGroups]: no catalog is parsed while [csvData] is
    [null] or empty. *)
Definition productGroups (localeCompare : jsstring -> jsstring -> Z)
    (csvData : option jsstring) : outcome :=
  match csvData with
  | None | Some [] => Returns []
  | Some csv => parseCSV localeCompare csv
  end.

(** The callback of [productGroups.filter] for the search term [term]. *)
Definition groupMatches (term : jsstring) (group : ProductGroup.t) : bool :=
  let nameMatch := includes (toLowerCase (parentName group)) term in
  let familyMatch := includes (toLowerCase (ProductGroup.family group)) term in
  let variantMatch :=
    existsb (fun v => includes (toLowerCase (sku v)) term
                      || includes (toLowerCase (ProductVariant.description v)) term)
            (variants group) in
  nameMatch || familyMatch || variantMatch.

(** The memo [filteredGroups]. *)
Definition filteredGroups (groups : list ProductGroup.t) (searchTerm : jsstring)
  : list ProductGroup.t :=
  let term := trim (toLowerCase searchTerm) in
  if isEmpty term then groups else filter (groupMatches term) groups.

(** The value of the memo [activeVariant]: [null], [undefined] or a
    variant. *)
Inductive activeValue :=
| NoGroup                          (* [null]: no group is selected *)
| NoVariant                        (* [undefined]: the group has no variant *)
| Active (v : ProductVariant.t).

(** [selectedGroup.variants[selectedVariantIdx] || selectedGroup.variants[0]] *)
Definition activeVariant (selectedGroup : option ProductGroup.t)
    (selectedVariantIdx : nat) : activeValue :=
  match selectedGroup with
  | None => NoGroup
  | Some g =>
      match nth_error (variants g) selectedVariantIdx with
      | Some v => Active v
      | None =>
          match nth_error (variants g) 0 with
          | Some v => Active v
          | None => NoVariant
          end
      end
  end.

(** The five [useState] cells of the component. *)
Record appState := mkApp {
  csvData : option jsstring;
  searchTerm : jsstring;
  selectedGroup : option ProductGroup.t;
  selectedVariantIdx : nat;
  copiedSku : option jsstring
}.

(** The state at mount: [csvData] is whatever [localStorage] holds. *)
Definition initialState (stored : option jsstring) : appState :=
  mkApp stored [] None 0 None.

Definition handleSelectGroup (s : appState) (group : ProductGroup.t) : appState :=
  mkApp (csvData s) (searchTerm s) (Some group) 0 (copiedSku s).

(** [reader.onload] of [handleFileUpload]; [stored] tells whether
    [localStorage.setItem] returned, an exception from it leaving the
    statements after it unexecuted. *)
Definition fileLoaded (s : appState) (text : jsstring) (stored : bool) : appState :=
  match text with
  | [] => s
  | _ :: _ =>
      if stored
      then mkApp (Some text) (searchTerm s) None (selectedVariantIdx s) (copiedSku s)
      else mkApp (Some text) (searchTerm s) (selectedGroup s)
                 (selectedVariantIdx s) (copiedSku s)
  end.

(** [clearData], by the answer to [confirm]. *)
Definition clearData (s : appState) (confirmed : bool) : appState :=
  if confirmed
  then mkApp None (searchTerm s) None (selectedVariantIdx s) (copiedSku s)
  else s.

(** [setSelectedGroup(null)], the handler of the title. *)
Definition returnHome (s : appState) : appState :=
  mkApp (csvData s) (searchTerm s) None (selectedVariantIdx s) (copiedSku s).

(** [copySku(activeVariant?.sku || '')], up to the timer it starts. *)
Definition copySku (s : appState) : appState :=
  mkApp (csvData s) (searchTerm s) (selectedGroup s) (selectedVariantIdx s)
    (Some match activeVariant (selectedGroup s) (selectedVariantIdx s) with
          | Active v => sku v
          | _ => []
          end).

(** The main interface is rendered, showing the catalog [cat]: [csvData]
    is a string that is not empty and parsing it returned [cat]. *)
Definition mainInterface (localeCompare : jsstring -> jsstring -> Z)
    (s : appState) (cat : list ProductGroup.t) : Prop :=
  (exists c csv, csvData s = Some (c :: csv))
  /\ productGroups localeCompare (csvData s) = Returns cat.

(** One event of the component.  The events of the main interface need
    it rendered; a group is selected from the list shown, a variant from
    the buttons of the selected group. *)
Inductive step (localeCompare : jsstring -> jsstring -> Z)
  : appState -> appState -> Prop :=
| SelectGroup s cat group :
    mainInterface localeCompare s cat ->
    In group (filteredGroups cat (searchTerm s)) ->
    step localeCompare s (handleSelectGroup s group)
| SelectVariant s cat g i :
    mainInterface localeCompare s cat ->
    selectedGroup s = Some g -> i < List.length (variants g) ->
    step localeCompare s
      (mkApp (csvData s) (searchTerm s) (selectedGroup s) i (copiedSku s))
| ReturnHome s cat :
    mainInterface localeCompare s cat ->
    step localeCompare s (returnHome s)
| Search s cat value :
    mainInterface localeCompare s cat ->
    step localeCompare s
      (mkApp (csvData s) value (selectedGroup s) (selectedVariantIdx s) (copiedSku s))
| ClearData s cat confirmed :
    mainInterface localeCompare s cat ->
    step localeCompare s (clearData s confirmed)
| CopySku s cat g :
    mainInterface localeCompare s cat -> selectedGroup s = Some g ->
    step localeCompare s (copySku s)
| CopyExpired s :
    step localeCompare s
      (mkApp (csvData s) (searchTerm s) (selectedGroup s) (selectedVariantIdx s) None)
| FileLoaded s text stored :
    step localeCompare s (fileLoaded s text stored).

Inductive reachable (localeCompare : jsstring -> jsstring -> Z)
  : appState -> Prop :=
| AtMount stored : reachable localeCompare (initialState stored)
| AfterStep s s' :
    reachable localeCompare s -> step localeCompare s s' ->
    reachable localeCompare s'.

(** ** Further sample documents *)

(** [catalogDoc] with another line 0. *)
Definition otherHeaderDoc : jsstring :=
  joinLines [sentinelLine; rowZeta1; rowAlpha1; rowZeta2; rowZeta1Again].
Definition shortRow : jsstring := lit "Paint,Interior,Zeta,Z9".
Definition shortRowDoc : jsstring :=
  joinLines [header; rowZeta1; shortRow; rowAlpha1].
Definition shortRowDocWithout : jsstring :=
  joinLines [header; rowZeta1; rowAlpha1].
Definition rowDollarWeight : jsstring :=
  lit "Paint,Interior,Acme,A1,Quart,EA,5,,4,3,2,,,$5".
Definition oneRowDoc : jsstring := joinLines [header; rowZeta1].
Definition sampleLines : list jsstring := [header; rowZeta1; rowAlpha1].
Definition sampleFields : list jsstring :=
  [lit "Zeta, large"; lit "he said " ++ [DQUOTE] ++ lit "hi" ++ [DQUOTE]; lit "EA"].

(** The group Zeta selected in [catalogDoc], at its second variant. *)
Definition selectedState : appState :=
  mkApp (Some catalogDoc) [] (Some zetaGroup) 1 None.


(** ** A collation *)

(** An order in the manner of the host's default collation, for names
    written with the letters a-z and A-Z: alphabetical without regard to
    case, and between names that differ by case only, lowercase first at
    the first difference.  It is not the order of the code units, in
    which every capital comes before every small letter. *)
Definition letterCollation (a b : jsstring) : Z :=
  let alphabetical := codeUnitCompare (toLowerCase a) (toLowerCase b) in
  if (alphabetical =? 0)%Z then (- codeUnitCompare a b)%Z else alphabetical.

Definition rowApple : jsstring :=
  lit "Paint,Exterior,apple,P1,Apple quart,EA,$3.00,,3,3,3".
Definition collationDoc : jsstring := joinLines [header; rowZeta1; rowApple].

Definition collationCatalog : list ProductGroup.t :=
  catalogOf letterCollation (documentRows collationDoc).

(** ** Documents with empty and padded family cells *)

(** Beta is opened by a row without family; Gamma by a row whose family
    cell is padded, and is followed by a row without family. *)
Definition rowBeta1 : jsstring :=
  lit "Paint,,Beta,B1,Beta quart,EA,$1.00,,1,1,1".
Definition rowBeta2 : jsstring :=
  lit "Paint,Trim,Beta,B2,Beta gallon,EA,$2.00,,2,2,2".
Definition rowGamma1 : jsstring :=
  lit "Paint,  Floor  ,Gamma,G1,Gamma quart,EA,$3.00,,3,3,3".
Definition rowGamma2 : jsstring :=
  lit "Paint,,Gamma,G2,Gamma gallon,EA,$4.00,,4,4,4".
Definition familyDoc : jsstring :=
  joinLines [header; rowBeta1; rowBeta2; rowGamma1; rowGamma2].
Definition familyCatalog : list ProductGroup.t :=
  catalogOf codeUnitCompare (documentRows familyDoc).
Definition betaGroup : ProductGroup.t :=
  groupFrom (documentRows familyDoc) (parseLine rowBeta1).
Definition gammaGroup : ProductGroup.t :=
  groupFrom (documentRows familyDoc) (parseLine rowGamma1).

(** * Properties *)

(** ** Equality of strings *)

Lemma jsstring_eqb_eq (a b : jsstring) : jsstring_eqb a b = true <-> a = b.
Proof.
  unfold jsstring_eqb. destruct (list_eq_dec ascii_dec a b); split; congruence.
Qed.

Lemma jsstring_eqb_neq (a b : jsstring) : jsstring_eqb a b = false <-> a <> b.
Proof.
  unfold jsstring_eqb. destruct (list_eq_dec ascii_dec a b); split; congruence.
Qed.

Lemma jsstring_eqb_refl (a : jsstring) : jsstring_eqb a a = true.
Proof. now apply jsstring_eqb_eq. Qed.

Lemma jsstring_eqb_sym (a b : jsstring) : jsstring_eqb a b = jsstring_eqb b a.
Proof.
  destruct (jsstring_eqb b a) eqn:E.
  - apply jsstring_eqb_eq in E. subst. apply jsstring_eqb_refl.
  - apply jsstring_eqb_neq in E. apply jsstring_eqb_neq. congruence.
Qed.

Ltac eqb_cases a b :=
  let E := fresh "E" in
  destruct (jsstring_eqb a b) eqn:E;
  [apply jsstring_eqb_eq in E | apply jsstring_eqb_neq in E].

(** ** The own properties of [groups] *)

Lemma getOwn_app (g1 g2 : groupsObject) (k : jsstring) :
  getOwn (g1 ++ g2) k =
  match getOwn g1 k with Some g => Some g | None => getOwn g2 k end.
Proof.
  induction g1 as [|[k' g'] g1 IH]; simpl; [reflexivity|].
  destruct (jsstring_eqb k' k); [reflexivity | exact IH].
Qed.

Lemma setOwn_fresh (groups : groupsObject) (k : jsstring) (g0 g1 : ProductGroup.t) :
  getOwn groups k = None ->
  setOwn (groups ++ [(k, g0)]) k g1 = groups ++ [(k, g1)].
Proof.
  induction groups as [|[k' g'] groups IH]; simpl; intro H.
  - now rewrite jsstring_eqb_refl.
  - destruct (jsstring_eqb k' k); [discriminate|]. now rewrite IH.
Qed.

Lemma getProperty_own (groups : groupsObject) (k : jsstring) (g : ProductGroup.t) :
  getProperty groups k = Own g <-> getOwn groups k = Some g.
Proof.
  unfold getProperty. destruct (getOwn groups k).
  - split; congruence.
  - destruct (isPrototypeKey k); split; discriminate.
Qed.

(** ** The loop body, by cases on the line *)

Lemma dataRow_sentinel (l : jsstring) : isSentinel l = true -> dataRow l = None.
Proof. unfold dataRow. now intros ->. Qed.

Lemma processLine_cases (groups : groupsObject) (l : jsstring) :
  processLine groups l =
  if isSentinel l then Break
  else match dataRow l with
       | None => Next groups
       | Some parts =>
           match addRow groups parts with
           | Some groups' => Next groups'
           | None => Throw
           end
       end.
Proof.
  unfold processLine, dataRow, isSentinel.
  destruct (startsWith (toLowerCase (trim l)) (lit "scsclass")); [reflexivity|].
  destruct (isEmpty (trim l) || _); [reflexivity|].
  destruct (List.length (parseLine (trim l)) <? 11); [reflexivity|].
  unfold addRow.
  destruct (getProperty groups _) as [g| |] eqn:P.
  - rewrite P. now destruct (hasSku _ _).
  - now rewrite P.
  - unfold getProperty in P |- *.
    destruct (getOwn groups _) eqn:O; [discriminate|].
    rewrite getOwn_app, O. simpl. rewrite jsstring_eqb_refl. simpl.
    now rewrite setOwn_fresh.
Qed.

Lemma processLines_addRows (lines : list jsstring) (groups : groupsObject) :
  processLines groups lines = addRows groups (dataRows lines).
Proof.
  revert groups. induction lines as [|l lines IH]; intro groups; simpl; [reflexivity|].
  rewrite processLine_cases.
  destruct (isSentinel l); [reflexivity|].
  destruct (dataRow l) as [parts|]; simpl; [|apply IH].
  destruct (addRow groups parts); [apply IH | reflexivity].
Qed.

(** ** First occurrences *)

Section FirstByFacts.
Variable A : Type.
Variable key : A -> jsstring.

Local Abbreviation same := (sameKey key).
Local Abbreviation other x := (fun y => negb (sameKey key x y)).

Lemma sameKey_sym (x y : A) : same x y = same y x.
Proof. unfold sameKey. apply jsstring_eqb_sym. Qed.

Lemma sameKey_key (x y : A) : same x y = true <-> key y = key x.
Proof. unfold sameKey. apply jsstring_eqb_eq. Qed.

Lemma filter_comm (P Q : A -> bool) (l : list A) :
  filter P (filter Q l) = filter Q (filter P l).
Proof.
  induction l as [|a l IH]; simpl; [reflexivity|].
  destruct (P a) eqn:EP, (Q a) eqn:EQ; simpl; rewrite ?EP, ?EQ, IH; reflexivity.
Qed.

Lemma filter_idem (P : A -> bool) (l : list A) :
  filter P (filter P l) = filter P l.
Proof.
  induction l as [|a l IH]; simpl; [reflexivity|].
  destruct (P a) eqn:EP; simpl; rewrite ?EP, IH; reflexivity.
Qed.

(** A filter that only looks at the key commutes with [firstBy]. *)
Lemma firstBy_filter (P : A -> bool) (l : list A) :
  (forall x y, key x = key y -> P x = P y) ->
  filter P (firstBy key l) = firstBy key (filter P l).
Proof.
  intro HP. induction l as [|a l IH]; simpl; [reflexivity|].
  destruct (P a) eqn:EP; simpl.
  - now rewrite filter_comm, IH.
  - rewrite <- IH. rewrite filter_comm.
    rewrite (filter_ext_in (other a) P).
    + apply filter_idem.
    + intros y Hy. apply filter_In in Hy. destruct Hy as [_ Py].
      destruct (same a y) eqn:S; simpl; [|now rewrite Py].
      apply sameKey_key in S. rewrite (HP _ _ S). now rewrite EP.
Qed.

Lemma other_respects (x y z : A) :
  key y = key z -> negb (same x y) = negb (same x z).
Proof. unfold sameKey. now intros ->. Qed.

Lemma firstBy_incl (l : list A) (y : A) : In y (firstBy key l) -> In y l.
Proof.
  revert y. induction l as [|a l IH]; simpl; intros y H; [exact H|].
  destruct H as [H|H]; [now left|].
  apply filter_In in H. right. now apply IH.
Qed.

Lemma existsb_firstBy (k : jsstring) (l : list A) :
  existsb (fun y => jsstring_eqb (key y) k) (firstBy key l)
  = existsb (fun y => jsstring_eqb (key y) k) l.
Proof.
  induction l as [|a l IH]; simpl; [reflexivity|].
  eqb_cases (key a) k; simpl; [reflexivity|].
  rewrite <- IH. clear IH.
  induction (firstBy key l) as [|b l' IH']; simpl; [reflexivity|].
  unfold sameKey at 1. eqb_cases (key b) (key a); simpl.
  - rewrite IH'. eqb_cases (key b) k; [congruence | reflexivity].
  - now rewrite IH'.
Qed.

Lemma find_firstBy (k : jsstring) (l : list A) :
  find (fun y => jsstring_eqb (key y) k) (firstBy key l)
  = find (fun y => jsstring_eqb (key y) k) l.
Proof.
  induction l as [|a l IH]; simpl; [reflexivity|].
  eqb_cases (key a) k; simpl; [reflexivity|].
  rewrite <- IH. clear IH.
  induction (firstBy key l) as [|b l' IH']; simpl; [reflexivity|].
  unfold sameKey at 1. eqb_cases (key b) (key a); simpl.
  - rewrite IH'. eqb_cases (key b) k; [congruence | reflexivity].
  - now rewrite IH'.
Qed.

Lemma firstBy_snoc (l : list A) (x : A) :
  firstBy key (l ++ [x]) =
  if existsb (same x) l then firstBy key l else firstBy key l ++ [x].
Proof.
  induction l as [|a l IH]; simpl; [reflexivity|].
  rewrite IH. destruct (existsb (same x) l).
  - now rewrite orb_true_r.
  - rewrite orb_false_r, filter_app. simpl.
    rewrite (sameKey_sym a x).
    destruct (same x a); simpl; now rewrite ?app_nil_r.
Qed.

(** A later element whose key has been seen changes nothing. *)
Lemma firstBy_seen (a b : list A) (x : A) :
  existsb (same x) a = true ->
  firstBy key (a ++ x :: b) = firstBy key (a ++ b).
Proof.
  induction a as [|y a IH]; simpl; [discriminate|].
  intro H. destruct (existsb (same x) a) eqn:E.
  - now rewrite IH.
  - rewrite orb_false_r in H. f_equal.
    rewrite !firstBy_filter by (intros; now apply other_respects).
    f_equal. rewrite !filter_app. simpl.
    rewrite (sameKey_sym y x), H. reflexivity.
Qed.

Lemma firstBy_keys_NoDup (l : list A) : NoDup (map key (firstBy key l)).
Proof.
  induction l as [|a l IH]; simpl; [constructor|].
  constructor.
  - intro H. apply in_map_iff in H. destruct H as [y [Hk Hy]].
    apply filter_In in Hy. destruct Hy as [_ Hy].
    unfold sameKey in Hy. rewrite Hk, jsstring_eqb_refl in Hy. discriminate.
  - clear -IH. induction (firstBy key l) as [|b l' IH']; simpl; [constructor|].
    inversion IH; subst.
    destruct (negb (same a b)); simpl; [|now apply IH'].
    constructor; [|now apply IH'].
    intro H. apply H1. apply in_map_iff in H. destruct H as [y [Hk Hy]].
    apply filter_In in Hy. apply in_map_iff. exists y. tauto.
Qed.

(** Each key of the list has its first element in [firstBy]. *)
Lemma firstBy_find (l : list A) (x : A) :
  In x (firstBy key l) ->
  find (fun y => jsstring_eqb (key y) (key x)) l = Some x.
Proof.
  induction l as [|a l IH]; simpl; [tauto|].
  intros [H|H].
  - subst. now rewrite jsstring_eqb_refl.
  - apply filter_In in H. destruct H as [H Hn].
    unfold sameKey in Hn. destruct (jsstring_eqb (key x) (key a)) eqn:E; [discriminate|].
    rewrite jsstring_eqb_sym in E. rewrite E. now apply IH.
Qed.
End FirstByFacts.

(** ** The loop computes the closed form *)

Lemma addRows_app (groups : groupsObject) (a b : list (list jsstring)) :
  addRows groups (a ++ b) =
  match addRows groups a with
  | Some groups' => addRows groups' b
  | None => None
  end.
Proof.
  revert groups. induction a as [|r a IH]; intro groups; simpl; [reflexivity|].
  destruct (addRow groups r); [apply IH | reflexivity].
Qed.

Lemma find_none_existsb (A : Type) (P : A -> bool) (l : list A) :
  find P l = None <-> existsb P l = false.
Proof.
  induction l as [|a l IH]; simpl; [tauto|].
  destruct (P a); simpl; [split; discriminate | exact IH].
Qed.

Lemma find_some_existsb (A : Type) (P : A -> bool) (l : list A) (x : A) :
  find P l = Some x -> existsb P l = true.
Proof.
  intro H. destruct (existsb P l) eqn:E; [reflexivity|].
  apply find_none_existsb in E. congruence.
Qed.

Lemma existsb_false_In (A : Type) (P : A -> bool) (l : list A) (x : A) :
  existsb P l = false -> In x l -> P x = false.
Proof.
  intros H Hx. destruct (P x) eqn:E; [|reflexivity].
  rewrite <- H. symmetry. apply existsb_exists. now exists x.
Qed.

Lemma filter_none (A : Type) (P : A -> bool) (l : list A) :
  existsb P l = false -> filter P l = [].
Proof.
  induction l as [|a l IH]; simpl; [reflexivity|].
  destruct (P a); simpl; [discriminate | exact IH].
Qed.

Lemma getOwn_map (G : list jsstring -> ProductGroup.t) (k : jsstring)
    (l : list (list jsstring)) :
  getOwn (map (fun r => (parentNameOf r, G r)) l) k
  = option_map G (find (fun r => jsstring_eqb (parentNameOf r) k) l).
Proof.
  induction l as [|a l IH]; simpl; [reflexivity|].
  destruct (jsstring_eqb (parentNameOf a) k); [reflexivity | exact IH].
Qed.

Lemma getOwn_groupsOf (rows : list (list jsstring)) (k : jsstring) :
  getOwn (groupsOf rows) k
  = option_map (groupFrom rows)
      (find (fun r => jsstring_eqb (parentNameOf r) k) rows).
Proof. unfold groupsOf. now rewrite getOwn_map, find_firstBy. Qed.

Lemma hasSku_map (l : list (list jsstring)) (s : jsstring) :
  hasSku (map variantOf l) s = existsb (fun r => jsstring_eqb (skuOf r) s) l.
Proof. unfold hasSku. induction l as [|a l IH]; simpl; [reflexivity | now rewrite IH]. Qed.

Lemma rowsOfParent_snoc (k : jsstring) (rows : list (list jsstring)) (r : list jsstring) :
  rowsOfParent k (rows ++ [r])
  = rowsOfParent k rows ++ (if jsstring_eqb (parentNameOf r) k then [r] else []).
Proof. unfold rowsOfParent. now rewrite filter_app. Qed.

Lemma setOwn_map (G G' : list jsstring -> ProductGroup.t) (p : jsstring)
    (g : ProductGroup.t) (l : list (list jsstring)) :
  NoDup (map parentNameOf l) ->
  (forall r, In r l -> parentNameOf r = p -> G' r = g) ->
  (forall r, In r l -> parentNameOf r <> p -> G' r = G r) ->
  setOwn (map (fun r => (parentNameOf r, G r)) l) p g
  = map (fun r => (parentNameOf r, G' r)) l.
Proof.
  induction l as [|a l IH]; simpl; intros ND Hp Hn; [reflexivity|].
  inversion ND as [|? ? Ha ND']; subst.
  eqb_cases (parentNameOf a) p.
  - rewrite (Hp a) by tauto. f_equal.
    apply map_ext_in. intros r Hr. f_equal. symmetry. apply Hn; [tauto|].
    intro Hk. apply Ha. apply in_map_iff. exists r. split; [congruence | exact Hr].
  - rewrite (Hn a) by tauto. f_equal. apply IH; auto.
Qed.

(** One more row after [rows], from the closed form to the closed form. *)
Lemma addRow_groupsOf (rows : list (list jsstring)) (r : list jsstring) :
  addRow (groupsOf rows) r =
  if isPrototypeKey (parentNameOf r)
     && negb (existsb (fun r' => jsstring_eqb (parentNameOf r') (parentNameOf r)) rows)
  then None else Some (groupsOf (rows ++ [r])).
Proof.
  unfold addRow, getProperty. rewrite getOwn_groupsOf.
  set (p := parentNameOf r).
  destruct (find (fun r' => jsstring_eqb (parentNameOf r') p) rows) as [r0|] eqn:F; simpl.
  - (* the group exists; it was opened by [r0] *)
    pose proof (find_some_existsb _ _ F) as Ex. rewrite Ex, andb_false_r.
    pose proof (find_some _ _ F) as [In0 P0]. apply jsstring_eqb_eq in P0.
    rewrite P0, hasSku_map, existsb_firstBy.
    assert (Keys : firstBy parentNameOf (rows ++ [r]) = firstBy parentNameOf rows).
    { rewrite firstBy_snoc. unfold sameKey. fold p. now rewrite Ex. }
    assert (Others : forall r', parentNameOf r' <> p ->
                       groupFrom (rows ++ [r]) r' = groupFrom rows r').
    { intros r' Hn. unfold groupFrom. rewrite rowsOfParent_snoc. fold p.
      apply not_eq_sym, jsstring_eqb_neq in Hn. now rewrite Hn, app_nil_r. }
    assert (Same : forall r', parentNameOf r' = p ->
              variants (groupFrom (rows ++ [r]) r') =
              map variantOf
                (if existsb (fun x => jsstring_eqb (skuOf x) (skuOf r)) (rowsOfParent p rows)
                 then firstBy skuOf (rowsOfParent p rows)
                 else firstBy skuOf (rowsOfParent p rows) ++ [r])).
    { intros r' He. unfold groupFrom. simpl. rewrite He, rowsOfParent_snoc. fold p.
      rewrite jsstring_eqb_refl, firstBy_snoc. reflexivity. }
    destruct (existsb _ (rowsOfParent p rows)) eqn:Dup; f_equal;
      unfold groupsOf; rewrite Keys.
    + apply map_ext_in. intros r' _. f_equal.
      destruct (list_eq_dec ascii_dec (parentNameOf r') p) as [He|Hn].
      * specialize (Same r' He). unfold groupFrom in *. simpl in *.
        now rewrite Same, He.
      * symmetry. now apply Others.
    + apply setOwn_map.
      * apply firstBy_keys_NoDup.
      * intros r' Hr He. specialize (Same r' He).
        apply firstBy_find in Hr. rewrite He in Hr.
        assert (r' = r0) as -> by congruence.
        unfold groupFrom in *. simpl in *. rewrite Same, map_app. simpl.
        now rewrite P0.
      * intros r' _ Hn. now apply Others.
  - (* no group of that name yet *)
    pose proof (proj1 (find_none_existsb _ _) F) as Ex. rewrite Ex, andb_true_r.
    destruct (isPrototypeKey p); [reflexivity|]. f_equal.
    unfold groupsOf. rewrite firstBy_snoc. unfold sameKey. fold p. rewrite Ex.
    rewrite map_app. simpl. f_equal.
    + apply map_ext_in. intros r' Hr. f_equal.
      unfold groupFrom. rewrite rowsOfParent_snoc. fold p.
      assert (Hn : jsstring_eqb p (parentNameOf r') = false).
      { apply firstBy_incl in Hr.
        rewrite jsstring_eqb_sym. exact (existsb_false_In _ _ r' Ex Hr). }
      now rewrite Hn, app_nil_r.
    + unfold groupFrom. fold p. rewrite rowsOfParent_snoc. fold p.
      rewrite jsstring_eqb_refl. unfold rowsOfParent at 1.
      now rewrite (filter_none _ _ Ex).
Qed.

(** A row whose parent name is a member of [Object.prototype] makes the
    loop throw; without such a row the loop ends in the closed form. *)
Lemma addRows_from (rows done : list (list jsstring)) :
  existsb throwingRow done = false ->
  addRows (groupsOf done) rows =
  if existsb throwingRow rows then None else Some (groupsOf (done ++ rows)).
Proof.
  revert done. induction rows as [|r rows IH]; intros done Hd; simpl.
  - now rewrite app_nil_r.
  - rewrite addRow_groupsOf. unfold throwingRow at 1.
    destruct (isPrototypeKey (parentNameOf r)) eqn:K; simpl.
    + destruct (existsb (fun r' => jsstring_eqb (parentNameOf r') (parentNameOf r)) done)
        eqn:Ex; simpl; [|reflexivity].
      apply existsb_exists in Ex. destruct Ex as [r' [Hr' He]].
      apply jsstring_eqb_eq in He.
      pose proof (existsb_false_In _ _ r' Hd Hr') as Hk.
      unfold throwingRow in Hk. congruence.
    + rewrite IH.
      * now rewrite <- app_assoc.
      * rewrite existsb_app, Hd. simpl. unfold throwingRow. now rewrite K.
Qed.

Lemma addRows_closed (rows : list (list jsstring)) :
  addRows [] rows =
  if existsb throwingRow rows then None else Some (groupsOf rows).
Proof. exact (addRows_from rows [] eq_refl). Qed.

(** ** Sorting *)

Section SortFacts.
Variable A : Type.
Variable cmp : A -> A -> Z.

Lemma insertBy_perm (x : A) (l : list A) : Permutation (insertBy cmp x l) (x :: l).
Proof.
  induction l as [|y l IH]; simpl; [reflexivity|].
  destruct (cmp x y <=? 0)%Z; [reflexivity|].
  rewrite IH. apply perm_swap.
Qed.

Lemma sortBy_perm (l : list A) : Permutation (sortBy cmp l) l.
Proof.
  induction l as [|x l IH]; simpl; [reflexivity|].
  rewrite insertBy_perm. now constructor.
Qed.

Hypothesis cmp_total : forall a b, (0 < cmp a b -> cmp b a <= 0)%Z.
Hypothesis cmp_trans : forall a b c, (cmp a b <= 0 -> cmp b c <= 0 -> cmp a c <= 0)%Z.

Local Abbreviation ordered := (fun a b => (cmp a b <= 0)%Z).

Lemma insertBy_sorted (x : A) (l : list A) :
  StronglySorted ordered l -> StronglySorted ordered (insertBy cmp x l).
Proof.
  induction l as [|y l IH]; simpl; intro S.
  - repeat constructor.
  - inversion S as [|? ? S' Hy]; subst.
    destruct (cmp x y <=? 0)%Z eqn:E.
    + apply Z.leb_le in E. constructor; [exact S|].
      constructor; [exact E|].
      eapply Forall_impl; [|exact Hy]. intros z Hz. now apply cmp_trans with y.
    + apply Z.leb_gt in E. constructor; [now apply IH|].
      assert (F : Forall (ordered y) (x :: l))
        by (constructor; [now apply cmp_total | exact Hy]).
      rewrite Forall_forall in *. intros z Hz. apply F.
      apply (Permutation_in _ (insertBy_perm x l) Hz).
Qed.

Lemma sortBy_sorted (l : list A) : StronglySorted ordered (sortBy cmp l).
Proof.
  induction l as [|x l IH]; simpl; [constructor | now apply insertBy_sorted].
Qed.
End SortFacts.

Lemma filter_partition_perm (A : Type) (P : A -> bool) (l : list A) :
  Permutation (filter P l ++ filter (fun x => negb (P x)) l) l.
Proof.
  induction l as [|a l IH]; simpl; [reflexivity|].
  destruct (P a); simpl.
  - now constructor.
  - rewrite <- Permutation_middle. now constructor.
Qed.

Lemma ownEntries_perm (groups : groupsObject) : Permutation (ownEntries groups) groups.
Proof.
  unfold ownEntries. rewrite sortBy_perm.
  apply (filter_partition_perm (fun e => isArrayIndex (fst e))).
Qed.

Lemma objectValues_perm (groups : groupsObject) :
  Permutation (objectValues groups) (map snd groups).
Proof. unfold objectValues. apply Permutation_map, ownEntries_perm. Qed.

(** ** [parseCSV] in closed form *)

Lemma documentRows_short (csv : jsstring) :
  List.length (linesOf csv) < 2 -> documentRows csv = [].
Proof.
  unfold documentRows. destruct (linesOf csv) as [|h [|l rest]]; simpl; intro H;
    [reflexivity | reflexivity | lia].
Qed.

Section Closed.
Variable localeCompare : jsstring -> jsstring -> Z.

Local Abbreviation catalogOf := (catalogOf localeCompare).

Lemma parseCSV_closed (csv : jsstring) :
  parseCSV localeCompare csv =
  if existsb throwingRow (documentRows csv) then Throws
  else Returns (catalogOf (documentRows csv)).
Proof.
  unfold parseCSV. destruct csv as [|c csv]; [reflexivity|].
  cbn [isEmpty]. fold (linesOf (c :: csv)).
  destruct (List.length (linesOf (c :: csv)) <? 2) eqn:L.
  - apply Nat.ltb_lt in L. now rewrite (documentRows_short _ L).
  - rewrite processLines_addRows. fold (documentRows (c :: csv)).
    rewrite addRows_closed. now destruct (existsb _ _).
Qed.

Lemma catalogOf_perm (rows : list (list jsstring)) :
  Permutation (catalogOf rows)
    (map (groupFrom rows) (firstBy parentNameOf rows)).
Proof.
  unfold catalogOf. rewrite sortBy_perm, objectValues_perm.
  unfold groupsOf. rewrite map_map. reflexivity.
Qed.

Lemma parseCSV_returns (csv : jsstring) (cat : list ProductGroup.t) :
  parseCSV localeCompare csv = Returns cat ->
  cat = catalogOf (documentRows csv).
Proof.
  rewrite parseCSV_closed. destruct (existsb _ _); congruence.
Qed.

(** The groups of the catalog are the groups opened by the first row of
    each parent name. *)
Lemma in_catalogOf (rows : list (list jsstring)) (g : ProductGroup.t) :
  In g (catalogOf rows) <->
  exists first, In first (firstBy parentNameOf rows) /\ g = groupFrom rows first.
Proof.
  split.
  - intro H. apply (Permutation_in _ (catalogOf_perm rows)) in H.
    apply in_map_iff in H. destruct H as [f [E Hf]]. now exists f.
  - intros [f [Hf ->]].
    apply (Permutation_in _ (Permutation_sym (catalogOf_perm rows))).
    now apply in_map.
Qed.
End Closed.

(** ** Lines *)

Lemma splitLines_from_length (s cur : jsstring) :
  List.length (splitLines_from cur s) = S (count_occ ascii_dec s LF).
Proof.
  revert cur. induction s as [|c s IH]; intro cur; [reflexivity|].
  cbn [splitLines_from count_occ].
  destruct (ascii_dec c LF) as [->|Hc].
  - simpl. now rewrite IH.
  - assert (E : Ascii.eqb c LF = false) by now apply Ascii.eqb_neq.
    rewrite E. destruct (ascii_dec LF c); [congruence|].
    destruct (Ascii.eqb c CR); [|apply IH].
    destruct s as [|c' s']; [apply IH|].
    destruct (Ascii.eqb c' LF) eqn:E'; [|apply IH].
    apply Ascii.eqb_eq in E'. subst c'.
    specialize (IH []). simpl in IH. simpl. exact IH.
Qed.

(** A document has one line more than its trimmed text has line feeds. *)
Lemma linesOf_length (csv : jsstring) :
  List.length (linesOf csv) = S (count_occ ascii_dec (trim csv) LF).
Proof. apply splitLines_from_length. Qed.

Lemma dataRow_length (l : jsstring) (parts : list jsstring) :
  dataRow l = Some parts -> 11 <= List.length parts.
Proof.
  unfold dataRow. destruct (isSentinel l); [discriminate|].
  destruct (isEmpty (trim l) || _); [discriminate|].
  destruct (List.length (parseLine (trim l)) <? 11) eqn:L; [discriminate|].
  intro H. injection H as <-. now apply Nat.ltb_ge in L.
Qed.

Lemma dataRows_In (lines : list jsstring) (parts : list jsstring) :
  In parts (dataRows lines) -> exists l, In l lines /\ dataRow l = Some parts.
Proof.
  induction lines as [|l lines IH]; simpl; [tauto|].
  destruct (isSentinel l); [simpl; tauto|].
  destruct (dataRow l) as [p|] eqn:D.
  - intros [<-|H]; [exists l; tauto|].
    destruct (IH H) as [l' [? ?]]. exists l'. tauto.
  - intro H. destruct (IH H) as [l' [? ?]]. exists l'. tauto.
Qed.

Lemma documentRows_length (csv : jsstring) (parts : list jsstring) :
  In parts (documentRows csv) -> 11 <= List.length parts.
Proof.
  intro H. apply dataRows_In in H. destruct H as [l [_ D]].
  now apply dataRow_length in D.
Qed.

Lemma dataRows_app (a b : list jsstring) :
  dataRows (a ++ b) =
  dataRows a ++ (if existsb isSentinel a then [] else dataRows b).
Proof.
  induction a as [|l a IH]; simpl; [reflexivity|].
  destruct (isSentinel l); simpl; [reflexivity|].
  destruct (dataRow l); simpl; now rewrite IH.
Qed.

(** ** Numbers *)

Lemma binary_round_aux_signed (s : bool) (m e : Z) (l : location) :
  signed s (binary_round_aux prec emax s m e l).
Proof.
  unfold signed, binary_round_aux.
  destruct (shr_fexp prec emax m e l) as [mrs' e'].
  destruct (shr_fexp prec emax _ e' loc_Exact) as [mrs'' e''].
  destruct (shr_m mrs'') as [|p|p]; [tauto| |tauto].
  destruct (e'' <=? emax - prec)%Z; [|tauto].
  right. right. right. eauto.
Qed.

Lemma decimalToNumber_signed (neg : bool) (m : N) (e : Z) :
  signed neg (decimalToNumber neg m e).
Proof.
  unfold decimalToNumber. destruct m as [|p]; [right; now left|].
  unfold SFdiv.
  destruct (SFdiv_core_binary _ _ _ _ _ _) as [[mz ez] lz].
  rewrite xorb_false_r. apply binary_round_aux_signed.
Qed.

(** [parseFloat] gives NaN or a number with the sign written in the text. *)
Lemma parseFloat_signed (text : jsstring) :
  signed (leadingMinus text) (parseFloat text).
Proof.
  unfold parseFloat, leadingMinus.
  assert (E : spanSign (trimStart text)
              = (startsWith (trimStart text) (lit "-"), snd (spanSign (trimStart text)))).
  { unfold spanSign. destruct (trimStart text) as [|c rest]; [reflexivity|].
    simpl. destruct (Ascii.eqb c "-"); [reflexivity|].
    now destruct (Ascii.eqb c "+"). }
  rewrite E. set (neg := startsWith _ _). set (s1 := snd _).
  destruct (startsWith s1 (lit "Infinity")); [right; right; now left|].
  destruct (spanDigits s1) as [intDigits s2].
  destruct (match s2 with [] => _ | _ :: _ => _ end) as [fracDigits s3].
  destruct (isEmpty intDigits && isEmpty fracDigits); [now left|].
  apply decimalToNumber_signed.
Qed.

Lemma orNumber_zero_nonneg (x : number) :
  signed false x -> geNumber (orNumber x zero) zero = true.
Proof. intros [->|[->|[->|[m [e ->]]]]]; reflexivity. Qed.

Lemma clampedParse_intro (text : jsstring) :
  clampedParse text (orNumber (parseFloat text) zero).
Proof.
  unfold clampedParse. repeat split.
  - destruct (parseFloat text); discriminate.
  - now intros ->.
  - intro M. apply orNumber_zero_nonneg. rewrite <- M. apply parseFloat_signed.
Qed.

Lemma cleanPrice_parse (s : jsstring) :
  cleanPrice (Some s) = orNumber (parseFloat (stripPrice s)) zero.
Proof. destruct s; reflexivity. Qed.

Lemma stripPrice_idem (s : jsstring) : stripPrice (stripPrice s) = stripPrice s.
Proof. unfold stripPrice. apply filter_idem. Qed.

(** ** Where the catalog comes from *)

Lemma find_filter (A : Type) (P Q : A -> bool) (l : list A) :
  find P (filter Q l) = find (fun x => Q x && P x) l.
Proof.
  induction l as [|a l IH]; simpl; [reflexivity|].
  destruct (Q a); simpl; [|exact IH]. now destruct (P a).
Qed.

Section Sources.
Variable localeCompare : jsstring -> jsstring -> Z.

(** A variant of the catalog is built from the first row of its parent
    name and sku. *)
Lemma catalog_variant_source (rows : list (list jsstring))
    (g : ProductGroup.t) (v : ProductVariant.t) :
  In g (catalogOf localeCompare rows) -> In v (variants g) ->
  exists r,
    find (fun r' => jsstring_eqb (parentNameOf r') (parentName g)
                    && jsstring_eqb (skuOf r') (sku v)) rows = Some r
    /\ In r rows /\ parentNameOf r = parentName g /\ v = variantOf r.
Proof.
  intros Hg Hv. apply in_catalogOf in Hg. destruct Hg as [first [_ ->]].
  unfold groupFrom in Hv |- *. simpl in Hv |- *.
  apply in_map_iff in Hv. destruct Hv as [r [<- Hr]].
  exists r. pose proof (firstBy_find _ _ _ Hr) as F.
  apply firstBy_incl in Hr. unfold rowsOfParent in Hr, F.
  apply filter_In in Hr. destruct Hr as [Hr Hp]. apply jsstring_eqb_eq in Hp.
  rewrite find_filter in F. repeat split; assumption.
Qed.

(** A group of the catalog was opened by the first row of its parent
    name. *)
Lemma catalog_group_source (rows : list (list jsstring)) (g : ProductGroup.t) :
  In g (catalogOf localeCompare rows) ->
  exists first,
    find (fun r => jsstring_eqb (parentNameOf r) (parentName g)) rows = Some first
    /\ g = groupFrom rows first.
Proof.
  intro Hg. apply in_catalogOf in Hg. destruct Hg as [first [Hf ->]].
  exists first. split; [|reflexivity]. now apply firstBy_find in Hf.
Qed.
End Sources.

(** ** Comparators and repeated rows *)

Lemma codeUnitCompare_total (a b : jsstring) :
  (0 < codeUnitCompare a b -> codeUnitCompare b a <= 0)%Z.
Proof.
  revert b. induction a as [|x a IH]; intros [|y b]; simpl; try lia.
  destruct (N.ltb_spec (code x) (code y)), (N.ltb_spec (code y) (code x));
    try lia. apply IH.
Qed.

Lemma codeUnitCompare_trans (a b c : jsstring) :
  (codeUnitCompare a b <= 0 -> codeUnitCompare b c <= 0 ->
   codeUnitCompare a c <= 0)%Z.
Proof.
  revert b c. induction a as [|x a IH]; intros [|y b] [|z c]; simpl; try lia.
  destruct (N.ltb_spec (code x) (code y)), (N.ltb_spec (code y) (code x)),
           (N.ltb_spec (code y) (code z)), (N.ltb_spec (code z) (code y)),
           (N.ltb_spec (code x) (code z)), (N.ltb_spec (code z) (code x));
    try lia. apply IH.
Qed.

Lemma groupsOf_seen (a b : list (list jsstring)) (x seen : list jsstring) :
  In seen a -> parentNameOf seen = parentNameOf x -> skuOf seen = skuOf x ->
  groupsOf (a ++ x :: b) = groupsOf (a ++ b).
Proof.
  intros Hs Hp Hk. unfold groupsOf.
  rewrite firstBy_seen.
  2:{ apply existsb_exists. exists seen. split; [exact Hs|].
      unfold sameKey. now apply jsstring_eqb_eq. }
  apply map_ext. intro first. f_equal. unfold groupFrom. f_equal. f_equal.
  unfold rowsOfParent. rewrite !filter_app. simpl.
  eqb_cases (parentNameOf x) (parentNameOf first); [|reflexivity].
  apply firstBy_seen. apply existsb_exists. exists seen. split.
  - apply filter_In. split; [exact Hs|]. apply jsstring_eqb_eq. congruence.
  - unfold sameKey. now apply jsstring_eqb_eq.
Qed.

Lemma existsb_seen (A : Type) (P : A -> bool) (a b : list A) (x seen : A) :
  In seen a -> P seen = P x -> existsb P (a ++ x :: b) = existsb P (a ++ b).
Proof.
  intros Hs E. rewrite !existsb_app. simpl.
  destruct (P x) eqn:Px; [|reflexivity].
  assert (existsb P a = true) as -> by (apply existsb_exists; exists seen; split; congruence).
  reflexivity.
Qed.

Lemma firstBy_single (A : Type) (key : A -> jsstring) (k : jsstring) (l : list A) :
  (forall x, In x l -> key x = k) ->
  firstBy key l = match l with [] => [] | x :: _ => [x] end.
Proof.
  intro H. destruct l as [|a l]; [reflexivity|]. simpl. f_equal.
  apply filter_none. 
  destruct (existsb _ _) eqn:E; [|reflexivity].
  apply existsb_exists in E. destruct E as [y [Hy Hn]].
  apply firstBy_incl in Hy. unfold sameKey in Hn.
  rewrite (H y), (H a), jsstring_eqb_refl in Hn by (simpl; tauto). discriminate.
Qed.

Lemma find_filter_head (A : Type) (P : A -> bool) (l : list A) :
  find P l = match filter P l with [] => None | x :: _ => Some x end.
Proof.
  induction l as [|a l IH]; simpl; [reflexivity|]. now destruct (P a).
Qed.

Lemma filter_map_comm (A B : Type) (f : A -> B) (P : B -> bool) (l : list A) :
  filter P (map f l) = map f (filter (fun x => P (f x)) l).
Proof.
  induction l as [|a l IH]; simpl; [reflexivity|].
  destruct (P (f a)); simpl; now rewrite IH.
Qed.

(** The variants of one sku in a group: the one built from the first row
    of that parent name and sku. *)
Lemma groupFrom_sku (rows : list (list jsstring)) (first : list jsstring) (s : jsstring) :
  filter (fun v => jsstring_eqb (sku v) s) (variants (groupFrom rows first))
  = match find (fun r => jsstring_eqb (parentNameOf r) (parentNameOf first)
                         && jsstring_eqb (skuOf r) s) rows with
    | Some r => [variantOf r]
    | None => []
    end.
Proof.
  unfold groupFrom. cbn [variants].
  rewrite filter_map_comm.
  change (fun x => jsstring_eqb (sku (variantOf x)) s)
    with (fun x => jsstring_eqb (skuOf x) s).
  rewrite firstBy_filter by (intros x y E; now rewrite E).
  rewrite (firstBy_single skuOf (k:=s)).
  2:{ intros x Hx. apply filter_In in Hx. now apply jsstring_eqb_eq. }
  rewrite <- find_filter. unfold rowsOfParent. rewrite (find_filter_head _ (filter _ rows)).
  now destruct (filter _ (filter _ rows)).
Qed.

(** ** Fields and first rows *)

Lemma find_in_firstBy (A : Type) (key : A -> jsstring) (k : jsstring)
    (l : list A) (x : A) :
  find (fun y => jsstring_eqb (key y) k) l = Some x -> In x (firstBy key l).
Proof.
  intro F. rewrite <- find_firstBy in F. now apply find_some in F.
Qed.

Lemma parseLine_loop_trimmed (line cur : jsstring) (inQuotes : bool)
    (result : list jsstring) :
  Forall (fun f => exists raw, f = trim raw) result ->
  Forall (fun f => exists raw, f = trim raw) (parseLine_loop line cur inQuotes result).
Proof.
  revert cur inQuotes result.
  enough (H : forall n line, List.length line <= n ->
            forall cur inQuotes result,
              Forall (fun f => exists raw, f = trim raw) result ->
              Forall (fun f => exists raw, f = trim raw)
                (parseLine_loop line cur inQuotes result))
    by (intros; now apply (H (List.length line))).
  induction n as [|n IH]; intros [|c rest] L cur q result R; simpl in L |- *;
    try lia;
    try (apply Forall_app; split; [exact R | repeat constructor; now exists cur]).
  assert (Push : Forall (fun f => exists raw, f = trim raw) (result ++ [trim cur]))
    by (apply Forall_app; split; [exact R | repeat constructor; now exists cur]).
  destruct (Ascii.eqb c DQUOTE).
  - destruct q; [destruct rest as [|c' rest']|]; try (apply IH; [simpl in *; lia | exact R]).
    destruct (Ascii.eqb c' DQUOTE); apply IH; simpl in *; try lia; exact R.
  - destruct (Ascii.eqb c COMMA && negb q); apply IH; try lia; assumption.
Qed.

(** Every field [parseLine] returns has been trimmed. *)
Lemma parseLine_trimmed (line : jsstring) :
  Forall (fun f => exists raw, f = trim raw) (parseLine line).
Proof. apply parseLine_loop_trimmed. constructor. Qed.

(** ** Trimming *)

Lemma trimStart_split (s : jsstring) :
  exists ws, forallb isWhiteSpace ws = true /\ s = ws ++ trimStart s.
Proof.
  induction s as [|c s [ws [W E]]]; [now exists []|].
  simpl. destruct (isWhiteSpace c) eqn:C.
  - exists (c :: ws). simpl. rewrite C, W. split; [reflexivity | now f_equal].
  - now exists [].
Qed.

Lemma trimStart_head (s : jsstring) :
  match trimStart s with [] => True | c :: _ => isWhiteSpace c = false end.
Proof.
  induction s as [|c s IH]; simpl; [exact I|].
  destruct (isWhiteSpace c) eqn:C; [exact IH | exact C].
Qed.

Lemma trimStart_fixed (s : jsstring) :
  match s with [] => True | c :: _ => isWhiteSpace c = false end ->
  trimStart s = s.
Proof. destruct s as [|c s]; simpl; [reflexivity | now intros ->]. Qed.

Lemma trimStart_ws_app (ws s : jsstring) :
  forallb isWhiteSpace ws = true -> trimStart (ws ++ s) = trimStart s.
Proof.
  induction ws as [|c ws IH]; simpl; [reflexivity|].
  intro H. apply andb_true_iff in H. destruct H as [-> H]. now apply IH.
Qed.

(** The text is its trimmed part between two runs of white space. *)
Lemma trim_split (s : jsstring) :
  exists pre post,
    forallb isWhiteSpace pre = true /\ forallb isWhiteSpace post = true
    /\ s = pre ++ trim s ++ post.
Proof.
  unfold trim, trimEnd.
  destruct (trimStart_split s) as [pre [Wpre E]].
  destruct (trimStart_split (rev (trimStart s))) as [ws [Wws E']].
  exists pre, (rev ws). split; [exact Wpre|]. split.
  - rewrite forallb_forall in *. intros x Hx. apply Wws. now apply in_rev.
  - rewrite E at 1. f_equal. rewrite <- rev_app_distr, <- E'. now rewrite rev_involutive.
Qed.

Lemma isTrimmed_spec (s : jsstring) :
  isTrimmed s = true <->
  match s with [] => True | c :: _ => isWhiteSpace c = false end
  /\ match rev s with [] => True | c :: _ => isWhiteSpace c = false end.
Proof.
  destruct s as [|c rest]; [simpl; tauto|].
  unfold isTrimmed. rewrite andb_true_iff, !negb_true_iff.
  assert (L : match rev (c :: rest) with [] => True | x :: _ => isWhiteSpace x = false end
              <-> isWhiteSpace (last rest c) = false).
  { destruct (rev (c :: rest)) as [|x r] eqn:R.
    - apply (f_equal (@List.length _)) in R. rewrite length_rev in R. discriminate.
    - assert (E : c :: rest = rev r ++ [x])
        by (rewrite <- (rev_involutive (c :: rest)), R; reflexivity).
      assert (last rest c = last (c :: rest) c) as -> by (destruct rest; reflexivity).
      rewrite E, last_last. tauto. }
  tauto.
Qed.

Lemma trim_isTrimmed (s : jsstring) : isTrimmed (trim s) = true.
Proof.
  apply isTrimmed_spec. unfold trim, trimEnd.
  set (t := trimStart s).
  pose proof (trimStart_head s) as Ht. fold t in Ht.
  pose proof (trimStart_head (rev t)) as Hu.
  destruct (trimStart_split (rev t)) as [ws [W E]].
  set (u := trimStart (rev t)) in *.
  rewrite rev_involutive. split; [|exact Hu].
  assert (Et : t = rev u ++ rev ws)
    by (rewrite <- rev_app_distr, <- E; now rewrite rev_involutive).
  destruct (rev u) as [|c r] eqn:R; [exact I|].
  rewrite Et in Ht. exact Ht.
Qed.

Lemma isTrimmed_trim (s : jsstring) : isTrimmed s = true -> trim s = s.
Proof.
  intro H. apply isTrimmed_spec in H. destruct H as [Hh Hl].
  unfold trim, trimEnd. rewrite (trimStart_fixed s Hh).
  rewrite (trimStart_fixed (rev s) Hl). apply rev_involutive.
Qed.

Lemma trim_idem (s : jsstring) : trim (trim s) = trim s.
Proof. apply isTrimmed_trim, trim_isTrimmed. Qed.

(** ** Cells of the data rows *)

(** A data row of the document is the tokenized text of a line after
    line 0; it has at least 11 fields, all trimmed. *)
Lemma documentRows_source (csv : jsstring) (parts : list jsstring) :
  In parts (documentRows csv) ->
  (exists line, In line (skipn 1 (linesOf csv)) /\ parseLine (trim line) = parts)
  /\ 11 <= List.length parts
  /\ Forall (fun f => isTrimmed f = true) parts.
Proof.
  intro H. pose proof (documentRows_length _ _ H) as L.
  apply dataRows_In in H. destruct H as [l [Hl D]].
  assert (E : parseLine (trim l) = parts).
  { unfold dataRow in D. destruct (isSentinel l); [discriminate|].
    destruct (isEmpty _ || _); [discriminate|].
    destruct (_ <? 11); [discriminate|]. now injection D. }
  split; [now exists l|]. split; [exact L|].
  rewrite <- E. eapply Forall_impl; [|apply parseLine_trimmed].
  intros f [raw ->]. apply trim_isTrimmed.
Qed.

Lemma orString_cell (cell d : jsstring) :
  (cell = [] -> orString (Some cell) d = d)
  /\ (cell <> [] -> orString (Some cell) d = cell).
Proof. destruct cell as [|c s]; split; simpl; congruence. Qed.

(** The family of a data row, by its cell 1. *)
Lemma familyOf_cell (csv : jsstring) (parts : list jsstring) :
  In parts (documentRows csv) ->
  exists cell,
    nth_error parts 1 = Some cell /\ isTrimmed cell = true
    /\ (cell = [] -> familyOf parts = lit "General")
    /\ (cell <> [] -> familyOf parts = cell).
Proof.
  intro H. destruct (documentRows_source _ _ H) as [_ [L T]].
  destruct (nth_error parts 1) as [cell|] eqn:N; [|apply nth_error_None in N; lia].
  exists cell. split; [reflexivity|]. split.
  - rewrite Forall_forall in T. apply T. now apply nth_error_In in N.
  - unfold familyOf. rewrite N. apply orString_cell.
Qed.

(** ** The collation of letters *)

Lemma codeUnitCompare_values (a b : jsstring) :
  codeUnitCompare a b = (-1)%Z \/ codeUnitCompare a b = 0%Z
  \/ codeUnitCompare a b = 1%Z.
Proof.
  revert b. induction a as [|x a IH]; intros [|y b]; simpl; try tauto.
  destruct (code x <? code y)%N; [tauto|].
  destruct (code y <? code x)%N; [tauto | apply IH].
Qed.

Lemma codeUnitCompare_opp (a b : jsstring) :
  codeUnitCompare b a = (- codeUnitCompare a b)%Z.
Proof.
  revert b. induction a as [|x a IH]; intros [|y b]; simpl; try reflexivity.
  destruct (N.ltb_spec (code x) (code y)), (N.ltb_spec (code y) (code x));
    try lia; try reflexivity. apply IH.
Qed.

Lemma codeUnitCompare_eq (a b : jsstring) : codeUnitCompare a b = 0%Z -> a = b.
Proof.
  revert b. induction a as [|x a IH]; intros [|y b]; simpl; try discriminate;
    [reflexivity|].
  destruct (N.ltb_spec (code x) (code y)); [discriminate|].
  destruct (N.ltb_spec (code y) (code x)); [discriminate|].
  intro E. f_equal; [|now apply IH].
  assert (C : code x = code y) by lia. unfold code in C.
  rewrite <- (ascii_N_embedding x), <- (ascii_N_embedding y). now rewrite C.
Qed.

Lemma codeUnitCompare_refl (a : jsstring) : codeUnitCompare a a = 0%Z.
Proof.
  induction a as [|x a IH]; simpl; [reflexivity|]. now rewrite N.ltb_irrefl.
Qed.

Lemma codeUnitCompare_strict (a b c : jsstring) :
  (codeUnitCompare a b < 0 -> codeUnitCompare b c <= 0 ->
   codeUnitCompare a c < 0)%Z.
Proof.
  intros H1 H2.
  assert (T : (codeUnitCompare a c <= 0)%Z)
    by (apply codeUnitCompare_trans with b; lia).
  destruct (Z.eq_dec (codeUnitCompare a c) 0) as [E|]; [|lia].
  apply codeUnitCompare_eq in E. subst c.
  rewrite (codeUnitCompare_opp a b) in H2. lia.
Qed.

Lemma letterCollation_total (a b : jsstring) :
  (0 < letterCollation a b -> letterCollation b a <= 0)%Z.
Proof.
  unfold letterCollation.
  rewrite (codeUnitCompare_opp (toLowerCase a) (toLowerCase b)).
  rewrite (codeUnitCompare_opp a b).
  destruct (Z.eqb_spec (codeUnitCompare (toLowerCase a) (toLowerCase b)) 0) as [E|E].
  - rewrite E. simpl. lia.
  - destruct (Z.eqb_spec (- codeUnitCompare (toLowerCase a) (toLowerCase b)) 0); lia.
Qed.

Lemma letterCollation_trans (a b c : jsstring) :
  (letterCollation a b <= 0 -> letterCollation b c <= 0 ->
   letterCollation a c <= 0)%Z.
Proof.
  unfold letterCollation.
  set (la := toLowerCase a). set (lb := toLowerCase b). set (lc := toLowerCase c).
  destruct (Z.eqb_spec (codeUnitCompare la lb) 0) as [Eab|Nab];
    destruct (Z.eqb_spec (codeUnitCompare lb lc) 0) as [Ebc|Nbc]; intros H1 H2.
  - apply codeUnitCompare_eq in Eab. apply codeUnitCompare_eq in Ebc.
    rewrite Eab, Ebc, codeUnitCompare_refl. simpl.
    assert ((codeUnitCompare c a <= 0)%Z).
    { apply codeUnitCompare_trans with b.
      - rewrite (codeUnitCompare_opp b c). lia.
      - rewrite (codeUnitCompare_opp a b). lia. }
    rewrite (codeUnitCompare_opp a c) in H. lia.
  - apply codeUnitCompare_eq in Eab. rewrite Eab.
    destruct (Z.eqb_spec (codeUnitCompare lb lc) 0); lia.
  - apply codeUnitCompare_eq in Ebc. rewrite <- Ebc.
    destruct (Z.eqb_spec (codeUnitCompare la lb) 0); lia.
  - assert ((codeUnitCompare la lc < 0)%Z)
      by (apply codeUnitCompare_strict with lb; lia).
    destruct (Z.eqb_spec (codeUnitCompare la lc) 0); lia.
Qed.

(** * The claims *)

(** ** The tokenizer and the price cleaner *)

(** C6.  Quoting on the two lines of the specification ([DQUOTE] is the
    double quote character).  In the line a, then b,c between quotes,
    then d, the comma between the quotes does not split and the fields
    are a, b,c and d.  The quoted cell he said hi, with hi between
    doubled quotes, is one field, in which each doubled quote has become
    one quote character. *)
Theorem C6_parseLine_quoting :
  parseLine (lit "a," ++ [DQUOTE] ++ lit "b,c" ++ [DQUOTE] ++ lit ",d")
    = [lit "a"; lit "b,c"; lit "d"]
  /\ parseLine ([DQUOTE] ++ lit "he said " ++ [DQUOTE; DQUOTE] ++ lit "hi"
                ++ [DQUOTE; DQUOTE] ++ [DQUOTE])
    = [lit "he said " ++ [DQUOTE] ++ lit "hi" ++ [DQUOTE]].
Proof. split; reflexivity. Qed.

(** C7.  [cleanPrice] removes every dollar sign, comma and white space
    character (and nothing else) from the cell, parses what is left with
    [parseFloat] and falls back to 0: its value depends on the stripped
    text only, it is 0 whenever that text does not parse, and it maps
    [$1,234.50] to 1234.5 (2469/2), the empty cell to 0 and [n/a] to 0. *)
Theorem C7_cleanPrice :
  (forall s, cleanPrice (Some s) = orNumber (parseFloat (stripPrice s)) zero)
  /\ (forall s c, In c (stripPrice s) <->
        In c s /\ c <> "$"%char /\ c <> ","%char /\ isWhiteSpace c = false)
  /\ (forall s, cleanPrice (Some s) = cleanPrice (Some (stripPrice s)))
  /\ (forall s, parseFloat (stripPrice s) = NaN -> cleanPrice (Some s) = zero)
  /\ cleanPrice (Some (lit "$1,234.50")) = dyadic 2469 (-1)
  /\ cleanPrice (Some []) = zero
  /\ cleanPrice (Some (lit "n/a")) = zero.
Proof.
  split; [exact cleanPrice_parse|].
  split.
  { intros s c. unfold stripPrice. rewrite filter_In.
    rewrite negb_true_iff, !orb_false_iff, !Ascii.eqb_neq. unfold COMMA. tauto. }
  split.
  { intro s. now rewrite !cleanPrice_parse, stripPrice_idem. }
  split.
  { intros s H. now rewrite cleanPrice_parse, H. }
  repeat split; vm_compute; reflexivity.
Qed.

(** ** One iteration on a short row *)

(** What the loop body does with a data row of 11 to 13 fields: the read
    of [parts[13]] gives [undefined], [parseFloat] turns it into NaN and
    the weight is 0; the row is then stored like any other row, unless
    its parent name is a member of [Object.prototype]. *)
Lemma processLine_short_row (groups : groupsObject) (line : jsstring)
    (parts : list jsstring) :
  dataRow line = Some parts ->
  11 <= List.length parts <= 13 ->
  nth_error parts 13 = None
  /\ parseFloat (ToString (nth_error parts 13)) = NaN
  /\ weight (variantOf parts) = zero
  /\ processLine groups line =
     match getProperty groups (parentNameOf parts) with
     | Undefined =>
         Next (groups ++ [(parentNameOf parts,
                           ProductGroup.mk (parentNameOf parts) (familyOf parts)
                             [variantOf parts])])
     | Own g =>
         if hasSku (variants g) (skuOf parts) then Next groups
         else Next (setOwn groups (parentNameOf parts)
                      (ProductGroup.mk (parentName g) (ProductGroup.family g)
                         (variants g ++ [variantOf parts])))
     | Inherited => Throw
     end.
Proof.
  intros D L.
  assert (N : nth_error parts 13 = None) by (apply nth_error_None; lia).
  assert (S : isSentinel line = false).
  { destruct (isSentinel line) eqn:E; [|reflexivity].
    rewrite (dataRow_sentinel _ E) in D. discriminate. }
  split; [exact N|]. split; [now rewrite N|]. split.
  - change (weight (variantOf parts))
      with (orNumber (parseFloat (ToString (nth_error parts 13))) zero).
    now rewrite N.
  - rewrite processLine_cases, S, D. unfold addRow.
    destruct (getProperty groups (parentNameOf parts)) as [g| |]; try reflexivity.
    now destruct (hasSku _ _).
Qed.

(** C10, at a row the code does not include.  [rowConstructor] is a data
    row of 11 fields; its weight cell is absent and the weight computed
    for it is 0, but its parent name is [constructor]: [groups[parentName]]
    is the inherited [Object] function, no group is created, the read of
    [.variants] gives [undefined] and [parseCSV] throws instead of
    returning a catalog with the row. *)
Theorem C10_short_row_not_included :
  dataRow rowConstructor = Some (parseLine rowConstructor)
  /\ List.length (parseLine rowConstructor) = 11
  /\ nth_error (parseLine rowConstructor) 13 = None
  /\ weight (variantOf (parseLine rowConstructor)) = zero
  /\ parentNameOf (parseLine rowConstructor) = lit "constructor"
  /\ processLine [] rowConstructor = Throw
  /\ parseCSV codeUnitCompare constructorDoc = Throws.
Proof. repeat split; vm_compute; reflexivity. Qed.

(** ** The catalog *)

(** C1, as stated, fails: a price cell [-5] gives the standard price -5,
    which is below 0. *)
Lemma C1_negative_price :
  exists g v,
    parseCSV codeUnitCompare negativePriceDoc = Returns [g]
    /\ variants g = [v]
    /\ stdPrice v = SFopp (dyadic 5 0)
    /\ geNumber (stdPrice v) zero = false.
Proof. eexists. eexists. vm_compute. repeat split. Qed.

(** C3, as stated, fails: line 0 is never tested, so when it starts with
    [scsclass] the row after it is still read and gives a group. *)
Lemma C3_sentinel_in_header :
  linesOf sentinelFirstDoc = [sentinelLine; rowOmega1]
  /\ isSentinel sentinelLine = true
  /\ parseCSV codeUnitCompare sentinelLine = Returns []
  /\ parseCSV codeUnitCompare sentinelFirstDoc
     = Returns [groupFrom [parseLine rowOmega1] (parseLine rowOmega1)]
  /\ variants (groupFrom [parseLine rowOmega1] (parseLine rowOmega1))
     = [variantOf (parseLine rowOmega1)].
Proof. repeat split; vm_compute; reflexivity. Qed.

(** C5, as stated, fails: the groups come in the order of the collation,
    which is not the lexicographic order of the code units.  With Zeta
    read before apple, the catalog is apple, then Zeta, as the collation
    has it; by code units Zeta comes before apple. *)
Lemma C5_collation_order :
  exists cat,
    parseCSV letterCollation collationDoc = Returns cat
    /\ map parentName cat = [lit "apple"; lit "Zeta"]
    /\ (letterCollation (lit "apple") (lit "Zeta") < 0)%Z
    /\ (0 < codeUnitCompare (lit "apple") (lit "Zeta"))%Z
    /\ ~ StronglySorted
           (fun a b => (codeUnitCompare (parentName a) (parentName b) <= 0)%Z) cat.
Proof.
  eexists. split; [vm_compute; reflexivity|].
  split; [reflexivity|]. split; [reflexivity|]. split; [reflexivity|].
  intro S. inversion S as [|a l _ F]; subst.
  inversion F as [|b l' H _]; subst.
  vm_compute in H. now apply H.
Qed.

Section Claims.
Variable localeCompare : jsstring -> jsstring -> Z.

(** C1, amended.  In the catalog returned for a document, every variant
    is built from a data row of the document, and each of its five
    numeric fields is [parseFloat(text) || 0] for the text of its own cell
    (the price cells stripped of dollar signs, commas and white space;
    the weight cell as it is, [undefined] when the row has no field 13).
    Such a value is never NaN, is exactly 0 when the cell is absent or
    does not parse, and is at least 0 unless the text starts with a
    minus sign. *)
Theorem C1_numeric_fields (csv : jsstring) (cat : list ProductGroup.t)
    (g : ProductGroup.t) (v : ProductVariant.t) :
  parseCSV localeCompare csv = Returns cat -> In g cat -> In v (variants g) ->
  exists parts,
    In parts (documentRows csv)
    /\ (forall i x,
          In (i, x) [(6, stdPrice v); (8, floorPrice v);
                     (9, givePrice v); (10, gsaPrice v)] ->
          exists s, nth_error parts i = Some s /\ clampedParse (stripPrice s) x)
    /\ clampedParse (ToString (nth_error parts 13)) (weight v)
    /\ (nth_error parts 13 = None -> weight v = zero).
Proof.
  intros P Hg Hv. apply parseCSV_returns in P. subst cat.
  destruct (catalog_variant_source _ _ _ _ Hg Hv) as [r [_ [Hr [_ ->]]]].
  exists r. split; [exact Hr|].
  pose proof (documentRows_length _ _ Hr) as L.
  split; [|split].
  - intros i x Hi.
    assert (Hx : i < List.length r /\ x = cleanPrice (nth_error r i)).
    { simpl in Hi. destruct Hi as [E|[E|[E|[E|[]]]]]; injection E as <- <-;
        (split; [lia | reflexivity]). }
    destruct Hx as [Hi' ->].
    destruct (nth_error r i) as [s|] eqn:N; [|apply nth_error_None in N; lia].
    exists s. split; [reflexivity|].
    rewrite cleanPrice_parse. apply clampedParse_intro.
  - apply clampedParse_intro.
  - intro N.
    change (weight (variantOf r))
      with (orNumber (parseFloat (ToString (nth_error r 13))) zero).
    now rewrite N.
Qed.

(** C2.  The empty document, and every document whose trimmed text splits
    into fewer than 2 lines, gives the empty catalog. *)
Theorem C2_short_document (csv : jsstring) :
  csv = [] \/ List.length (linesOf csv) < 2 ->
  parseCSV localeCompare csv = Returns [].
Proof.
  intros [->|H]; [reflexivity|].
  unfold parseCSV. destruct (isEmpty csv); [reflexivity|].
  fold (linesOf csv). apply Nat.ltb_lt in H. now rewrite H.
Qed.

(** C3, amended.  When a line other than line 0 starts, once trimmed and
    lowercased, with [scsclass], the data rows of the document are those
    of the lines between line 0 and that line: two documents that agree
    up to such a line have the same result, whatever follows it. *)
Theorem C3_nothing_after_sentinel (csv csv' first s : jsstring)
    (before after after' : list jsstring) :
  linesOf csv = first :: before ++ s :: after ->
  linesOf csv' = first :: before ++ s :: after' ->
  isSentinel s = true ->
  documentRows csv = dataRows before
  /\ parseCSV localeCompare csv = parseCSV localeCompare csv'.
Proof.
  intros L L' S.
  assert (R : forall tail, dataRows (before ++ s :: tail) = dataRows before).
  { intro tail. rewrite dataRows_app. simpl. rewrite S.
    destruct (existsb isSentinel before); apply app_nil_r. }
  assert (D : documentRows csv = dataRows before)
    by (unfold documentRows; rewrite L; apply R).
  assert (D' : documentRows csv' = dataRows before)
    by (unfold documentRows; rewrite L'; apply R).
  split; [exact D|]. now rewrite !parseCSV_closed, D, D'.
Qed.

(** C4.  Let [p1] and, later, [p2] be data rows of a document with the
    same sku and the same parent name.  Then a document with the same data
    rows but [p2] has the same result, and in the catalog the group of
    that name holds exactly one variant of that sku: the one built from
    the first row of that name and sku. *)
Theorem C4_duplicate_sku_dropped (csv csv' : jsstring)
    (before mid after : list (list jsstring)) (p1 p2 : list jsstring) :
  documentRows csv = before ++ p1 :: mid ++ p2 :: after ->
  documentRows csv' = before ++ p1 :: mid ++ after ->
  skuOf p1 = skuOf p2 -> parentNameOf p1 = parentNameOf p2 ->
  parseCSV localeCompare csv = parseCSV localeCompare csv'
  /\ forall cat, parseCSV localeCompare csv = Returns cat ->
       exists g kept,
         In g cat /\ parentName g = parentNameOf p1
         /\ find (fun r => jsstring_eqb (parentNameOf r) (parentNameOf p1)
                           && jsstring_eqb (skuOf r) (skuOf p1))
                 (documentRows csv) = Some kept
         /\ filter (fun v => jsstring_eqb (sku v) (skuOf p1)) (variants g)
            = [variantOf kept].
Proof.
  intros R R' Hs Hp.
  assert (In1 : In p1 (before ++ p1 :: mid))
    by (apply in_or_app; right; now left).
  assert (E : before ++ p1 :: mid ++ p2 :: after
              = (before ++ p1 :: mid) ++ p2 :: after)
    by now rewrite <- app_assoc.
  assert (E' : before ++ p1 :: mid ++ after = (before ++ p1 :: mid) ++ after)
    by now rewrite <- app_assoc.
  rewrite E in R. rewrite E' in R'.
  split.
  - rewrite !parseCSV_closed, R, R'.
    rewrite (existsb_seen throwingRow _ _ p2 p1 In1)
      by (unfold throwingRow; now rewrite Hp).
    unfold catalogOf. now rewrite (groupsOf_seen _ _ p2 p1 In1 Hp Hs).
  - intros cat P. apply parseCSV_returns in P. subst cat.
    set (rows := documentRows csv) in *.
    assert (InR : In p1 rows) by (rewrite R; apply in_or_app; now left).
    destruct (find (fun r => jsstring_eqb (parentNameOf r) (parentNameOf p1)) rows)
      as [opener|] eqn:F.
    2:{ apply find_none with (x := p1) in F; [|exact InR].
        rewrite jsstring_eqb_refl in F. discriminate. }
    pose proof (find_some _ _ F) as [_ Po]. apply jsstring_eqb_eq in Po.
    destruct (find (fun r => jsstring_eqb (parentNameOf r) (parentNameOf p1)
                            && jsstring_eqb (skuOf r) (skuOf p1)) rows)
      as [kept|] eqn:F1.
    2:{ apply find_none with (x := p1) in F1; [|exact InR].
        rewrite !jsstring_eqb_refl in F1. discriminate. }
    exists (groupFrom rows opener), kept. repeat split.
    + apply in_catalogOf. exists opener. split; [|reflexivity].
      now apply find_in_firstBy with (k := parentNameOf p1).
    + exact Po.
    + rewrite groupFrom_sku, Po, F1. reflexivity.
Qed.

(** C8.  The family of a group of the catalog is decided by the first
    data row of the document with the group's parent name, the tokenized
    text of a line of the document: the group's family is cell 1 of that
    row, which has no white space at its ends, and is [General] when that
    cell is empty.  Later rows of the same parent do not change it. *)
Theorem C8_group_family (csv : jsstring) (cat : list ProductGroup.t)
    (g : ProductGroup.t) :
  parseCSV localeCompare csv = Returns cat -> In g cat ->
  exists opener cell,
    find (fun r => jsstring_eqb (parentNameOf r) (parentName g))
         (documentRows csv) = Some opener
    /\ (exists line, In line (skipn 1 (linesOf csv))
                     /\ parseLine (trim line) = opener)
    /\ nth_error opener 1 = Some cell
    /\ isTrimmed cell = true
    /\ (cell = [] -> ProductGroup.family g = lit "General")
    /\ (cell <> [] -> ProductGroup.family g = cell).
Proof.
  intros P Hg. apply parseCSV_returns in P. subst cat.
  destruct (catalog_group_source _ _ _ Hg) as [opener [F ->]].
  pose proof (find_some _ _ F) as [Hin _].
  destruct (documentRows_source _ _ Hin) as [Src _].
  destruct (familyOf_cell _ _ Hin) as [cell [N [T [E NE]]]].
  exists opener, cell. repeat split; assumption.
Qed.

(** C9.  A variant of the catalog has the family of its own row, the
    first data row of its parent name and sku: cell 1 of that row, and
    [General] when that cell is empty.  It is not copied from the group:
    the variant of such a row and its group have the same family only
    when the family cell of the row and that of the row that opened the
    group are equal, or one is empty and the other is [General]. *)
Theorem C9_variant_family (csv : jsstring) (cat : list ProductGroup.t) :
  parseCSV localeCompare csv = Returns cat ->
  (forall g v, In g cat -> In v (variants g) ->
     exists own cell,
       find (fun r => jsstring_eqb (parentNameOf r) (parentName g)
                      && jsstring_eqb (skuOf r) (sku v))
            (documentRows csv) = Some own
       /\ nth_error own 1 = Some cell
       /\ (cell = [] -> ProductVariant.family v = lit "General")
       /\ (cell <> [] -> ProductVariant.family v = cell))
  /\ (forall own,
        find (fun r => jsstring_eqb (parentNameOf r) (parentNameOf own)
                       && jsstring_eqb (skuOf r) (skuOf own))
             (documentRows csv) = Some own ->
        exists g v opener ownCell openerCell,
          In g cat /\ In v (variants g) /\ sku v = skuOf own
          /\ find (fun r => jsstring_eqb (parentNameOf r) (parentName g))
                  (documentRows csv) = Some opener
          /\ nth_error own 1 = Some ownCell
          /\ nth_error opener 1 = Some openerCell
          /\ (ownCell = [] -> ProductVariant.family v = lit "General")
          /\ (ownCell <> [] -> ProductVariant.family v = ownCell)
          /\ (ProductVariant.family v = ProductGroup.family g <->
              ownCell = openerCell
              \/ (ownCell = [] /\ openerCell = lit "General")
              \/ (ownCell = lit "General" /\ openerCell = []))).
Proof.
  intro P. apply parseCSV_returns in P. subst cat.
  set (rows := documentRows csv). split.
  - intros g v Hg Hv.
    destruct (catalog_variant_source _ _ _ _ Hg Hv) as [own [F [Hin [Hp ->]]]].
    destruct (familyOf_cell _ _ Hin) as [cell [N [_ [E NE]]]].
    exists own, cell. repeat split; assumption.
  - intros own F.
    pose proof (find_some _ _ F) as [Hin _].
    destruct (find (fun r => jsstring_eqb (parentNameOf r) (parentNameOf own)) rows)
      as [opener|] eqn:Fp.
    2:{ apply find_none with (x := own) in Fp; [|exact Hin].
        rewrite jsstring_eqb_refl in Fp. discriminate. }
    pose proof (find_some _ _ Fp) as [HinO Po]. apply jsstring_eqb_eq in Po.
    destruct (familyOf_cell _ _ Hin) as [ownCell [N [_ [E NE]]]].
    destruct (familyOf_cell _ _ HinO) as [openerCell [No [_ [Eo NEo]]]].
    exists (groupFrom rows opener), (variantOf own), opener, ownCell, openerCell.
    change (parentName (groupFrom rows opener)) with (parentNameOf opener).
    change (ProductGroup.family (groupFrom rows opener)) with (familyOf opener).
    change (ProductVariant.family (variantOf own)) with (familyOf own).
    rewrite Po. split; [|split; [|split; [|split; [|split; [|split; [|split; [|split]]]]]]];
      try assumption; try reflexivity.
    + apply in_catalogOf. exists opener. split; [|reflexivity].
      now apply find_in_firstBy with (k := parentNameOf own).
    + unfold groupFrom. cbn [variants]. apply in_map.
      apply find_in_firstBy with (k := skuOf own).
      rewrite Po. unfold rowsOfParent. now rewrite find_filter.
    + destruct ownCell as [|a ownCell]; destruct openerCell as [|b openerCell].
      * rewrite E, Eo by reflexivity. tauto.
      * rewrite E by reflexivity. rewrite NEo by discriminate.
        split; [intro H; right; left; now split | ].
        intros [H|[[_ H]|[H _]]]; [discriminate H | now rewrite H | discriminate H].
      * rewrite NE by discriminate. rewrite Eo by reflexivity.
        split; [intro H; right; right; now split | ].
        intros [H|[[H _]|[H _]]]; [discriminate H | discriminate H | exact H].
      * rewrite NE, NEo by discriminate.
        split; [intro H; now left | ].
        intros [H|[[H _]|[_ H]]]; [exact H | discriminate H | discriminate H].
Qed.

Hypothesis localeCompare_total :
  forall a b, (0 < localeCompare a b -> localeCompare b a <= 0)%Z.
Hypothesis localeCompare_trans :
  forall a b c, (localeCompare a b <= 0 -> localeCompare b c <= 0 ->
                 localeCompare a c <= 0)%Z.

(** C5.  The catalog has no two groups of the same parent name, its
    parent names are those of the data rows of the document, and the
    variants of each group are those of the first row of each sku, in the
    order of the rows.  The groups are sorted by parent name in the order
    of [localeCompare], the collation of the host, taken to order strings
    (of two strings one does not come after the other, and the order is
    transitive); that order need not be the lexicographic order of the
    code units. *)
Theorem C5_groups_sorted (csv : jsstring) (cat : list ProductGroup.t) :
  parseCSV localeCompare csv = Returns cat ->
  NoDup (map parentName cat)
  /\ (forall p, In p (map parentName cat)
                <-> In p (map parentNameOf (documentRows csv)))
  /\ StronglySorted
       (fun a b => (localeCompare (parentName a) (parentName b) <= 0)%Z) cat
  /\ (forall g, In g cat ->
        variants g =
        map variantOf
          (firstBy skuOf (rowsOfParent (parentName g) (documentRows csv)))).
Proof.
  intro P. apply parseCSV_returns in P. subst cat.
  set (rows := documentRows csv).
  assert (Names : Permutation (map parentName (catalogOf localeCompare rows))
                    (map parentNameOf (firstBy parentNameOf rows))).
  { rewrite (Permutation_map parentName (catalogOf_perm localeCompare rows)).
    rewrite map_map. reflexivity. }
  split; [|split; [|split]].
  - apply (Permutation_NoDup (Permutation_sym Names)), firstBy_keys_NoDup.
  - intro p. split; intro H.
    + apply (Permutation_in _ Names) in H.
      apply in_map_iff in H. destruct H as [r [E Hr]].
      apply in_map_iff. exists r. split; [exact E | now apply firstBy_incl in Hr].
    + apply (Permutation_in _ (Permutation_sym Names)).
      apply in_map_iff in H. destruct H as [r [E Hr]].
      assert (Ex : existsb (fun y => jsstring_eqb (parentNameOf y) p)
                     (firstBy parentNameOf rows) = true).
      { rewrite existsb_firstBy. apply existsb_exists. exists r.
        split; [exact Hr | now apply jsstring_eqb_eq]. }
      apply existsb_exists in Ex. destruct Ex as [f [Hf Ef]].
      apply jsstring_eqb_eq in Ef. apply in_map_iff. now exists f.
  - unfold catalogOf. apply sortBy_sorted.
    + intros a b. apply localeCompare_total.
    + intros a b c. apply localeCompare_trans.
  - intros g Hg. apply in_catalogOf in Hg. destruct Hg as [opener [_ ->]].
    reflexivity.
Qed.
End Claims.

(** ** The claims on the sample documents *)

Lemma C1_numeric_fields_witness :
  parseCSV codeUnitCompare catalogDoc = Returns sampleCatalog
  /\ In zetaGroup sampleCatalog
  /\ In zetaVariant (variants zetaGroup)
  /\ exists parts,
       In parts (documentRows catalogDoc)
       /\ (forall i x,
             In (i, x) [(6, stdPrice zetaVariant); (8, floorPrice zetaVariant);
                        (9, givePrice zetaVariant); (10, gsaPrice zetaVariant)] ->
             exists s, nth_error parts i = Some s /\ clampedParse (stripPrice s) x)
       /\ clampedParse (ToString (nth_error parts 13)) (weight zetaVariant)
       /\ (nth_error parts 13 = None -> weight zetaVariant = zero).
Proof.
  assert (H1 : parseCSV codeUnitCompare catalogDoc = Returns sampleCatalog)
    by (vm_compute; reflexivity).
  assert (H2 : In zetaGroup sampleCatalog) by (vm_compute; auto).
  assert (H3 : In zetaVariant (variants zetaGroup)) by (vm_compute; auto).
  exact (conj H1 (conj H2 (conj H3
    (@C1_numeric_fields codeUnitCompare catalogDoc sampleCatalog
       zetaGroup zetaVariant H1 H2 H3)))).
Defined.

Lemma C2_short_document_witness :
  List.length (linesOf header) < 2
  /\ parseCSV codeUnitCompare header = Returns [].
Proof.
  assert (H : List.length (linesOf header) < 2) by (vm_compute; lia).
  exact (conj H (@C2_short_document codeUnitCompare header (or_intror H))).
Defined.

Lemma C3_nothing_after_sentinel_witness :
  linesOf sentinelDoc = header :: [rowZeta1] ++ sentinelLine :: [rowOmega1]
  /\ linesOf sentinelDocCut = header :: [rowZeta1] ++ sentinelLine :: []
  /\ isSentinel sentinelLine = true
  /\ documentRows sentinelDoc = dataRows [rowZeta1]
  /\ parseCSV codeUnitCompare sentinelDoc = parseCSV codeUnitCompare sentinelDocCut.
Proof.
  assert (H1 : linesOf sentinelDoc
               = header :: [rowZeta1] ++ sentinelLine :: [rowOmega1])
    by (vm_compute; reflexivity).
  assert (H2 : linesOf sentinelDocCut
               = header :: [rowZeta1] ++ sentinelLine :: [])
    by (vm_compute; reflexivity).
  assert (H3 : isSentinel sentinelLine = true) by reflexivity.
  exact (conj H1 (conj H2 (conj H3
    (@C3_nothing_after_sentinel codeUnitCompare sentinelDoc sentinelDocCut
       header sentinelLine [rowZeta1] [rowOmega1] [] H1 H2 H3)))).
Defined.

Lemma C4_duplicate_sku_dropped_witness :
  documentRows catalogDoc
    = [] ++ parseLine rowZeta1 :: [parseLine rowAlpha1; parseLine rowZeta2]
         ++ parseLine rowZeta1Again :: []
  /\ documentRows catalogDocOnce
    = [] ++ parseLine rowZeta1 :: [parseLine rowAlpha1; parseLine rowZeta2] ++ []
  /\ parseCSV codeUnitCompare catalogDoc = parseCSV codeUnitCompare catalogDocOnce
  /\ forall cat, parseCSV codeUnitCompare catalogDoc = Returns cat ->
       exists g kept,
         In g cat /\ parentName g = parentNameOf (parseLine rowZeta1)
         /\ find (fun r => jsstring_eqb (parentNameOf r)
                             (parentNameOf (parseLine rowZeta1))
                           && jsstring_eqb (skuOf r) (skuOf (parseLine rowZeta1)))
                 (documentRows catalogDoc) = Some kept
         /\ filter (fun v => jsstring_eqb (sku v) (skuOf (parseLine rowZeta1)))
              (variants g)
            = [variantOf kept].
Proof.
  assert (H1 : documentRows catalogDoc
    = [] ++ parseLine rowZeta1 :: [parseLine rowAlpha1; parseLine rowZeta2]
         ++ parseLine rowZeta1Again :: []) by (vm_compute; reflexivity).
  assert (H2 : documentRows catalogDocOnce
    = [] ++ parseLine rowZeta1 :: [parseLine rowAlpha1; parseLine rowZeta2] ++ [])
    by (vm_compute; reflexivity).
  assert (H3 : skuOf (parseLine rowZeta1) = skuOf (parseLine rowZeta1Again))
    by reflexivity.
  assert (H4 : parentNameOf (parseLine rowZeta1)
               = parentNameOf (parseLine rowZeta1Again)) by reflexivity.
  exact (conj H1 (conj H2
    (@C4_duplicate_sku_dropped codeUnitCompare catalogDoc catalogDocOnce
       [] [parseLine rowAlpha1; parseLine rowZeta2] []
       (parseLine rowZeta1) (parseLine rowZeta1Again) H1 H2 H3 H4))).
Defined.

Lemma C5_groups_sorted_witness :
  (parseCSV codeUnitCompare catalogDoc = Returns sampleCatalog
   /\ map parentName sampleCatalog = [lit "Alpha"; lit "Zeta"]
   /\ NoDup (map parentName sampleCatalog)
   /\ (forall p, In p (map parentName sampleCatalog)
                 <-> In p (map parentNameOf (documentRows catalogDoc)))
   /\ StronglySorted
        (fun a b => (codeUnitCompare (parentName a) (parentName b) <= 0)%Z)
        sampleCatalog
   /\ (forall g, In g sampleCatalog ->
         variants g =
         map variantOf
           (firstBy skuOf (rowsOfParent (parentName g) (documentRows catalogDoc)))))
  /\ (parseCSV letterCollation collationDoc = Returns collationCatalog
      /\ map parentName collationCatalog = [lit "apple"; lit "Zeta"]
      /\ NoDup (map parentName collationCatalog)
      /\ (forall p, In p (map parentName collationCatalog)
                    <-> In p (map parentNameOf (documentRows collationDoc)))
      /\ StronglySorted
           (fun a b => (letterCollation (parentName a) (parentName b) <= 0)%Z)
           collationCatalog
      /\ (forall g, In g collationCatalog ->
            variants g =
            map variantOf
              (firstBy skuOf
                 (rowsOfParent (parentName g) (documentRows collationDoc))))).
Proof.
  assert (H1 : parseCSV codeUnitCompare catalogDoc = Returns sampleCatalog)
    by (vm_compute; reflexivity).
  assert (H2 : map parentName sampleCatalog = [lit "Alpha"; lit "Zeta"])
    by (vm_compute; reflexivity).
  assert (H3 : parseCSV letterCollation collationDoc = Returns collationCatalog)
    by (vm_compute; reflexivity).
  assert (H4 : map parentName collationCatalog = [lit "apple"; lit "Zeta"])
    by (vm_compute; reflexivity).
  exact (conj
    (conj H1 (conj H2
      (@C5_groups_sorted codeUnitCompare codeUnitCompare_total
         codeUnitCompare_trans catalogDoc sampleCatalog H1)))
    (conj H3 (conj H4
      (@C5_groups_sorted letterCollation letterCollation_total
         letterCollation_trans collationDoc collationCatalog H3)))).
Defined.

Lemma C7_cleanPrice_witness :
  parseFloat (stripPrice (lit "n/a")) = NaN
  /\ cleanPrice (Some (lit "n/a")) = zero.
Proof.
  assert (H : parseFloat (stripPrice (lit "n/a")) = NaN) by reflexivity.
  exact (conj H
    (proj1 (proj2 (proj2 (proj2 C7_cleanPrice))) (lit "n/a") H)).
Defined.

(** In [familyDoc] the first row of Beta has an empty family cell and the
    second the family [Trim]: the group has the family [General].  The
    first row of Gamma has the family cell [Floor] between spaces: the
    group has the family [Floor]. *)
Lemma C8_group_family_witness :
  parseCSV codeUnitCompare familyDoc = Returns familyCatalog
  /\ In betaGroup familyCatalog /\ In gammaGroup familyCatalog
  /\ nth_error (parseLine rowBeta1) 1 = Some []
  /\ nth_error (parseLine rowBeta2) 1 = Some (lit "Trim")
  /\ nth_error (parseLine rowGamma1) 1 = Some (lit "Floor")
  /\ ProductGroup.family betaGroup = lit "General"
  /\ ProductGroup.family gammaGroup = lit "Floor"
  /\ (exists opener cell,
        find (fun r => jsstring_eqb (parentNameOf r) (parentName betaGroup))
             (documentRows familyDoc) = Some opener
        /\ (exists line, In line (skipn 1 (linesOf familyDoc))
                         /\ parseLine (trim line) = opener)
        /\ nth_error opener 1 = Some cell
        /\ isTrimmed cell = true
        /\ (cell = [] -> ProductGroup.family betaGroup = lit "General")
        /\ (cell <> [] -> ProductGroup.family betaGroup = cell))
  /\ (exists opener cell,
        find (fun r => jsstring_eqb (parentNameOf r) (parentName gammaGroup))
             (documentRows familyDoc) = Some opener
        /\ (exists line, In line (skipn 1 (linesOf familyDoc))
                         /\ parseLine (trim line) = opener)
        /\ nth_error opener 1 = Some cell
        /\ isTrimmed cell = true
        /\ (cell = [] -> ProductGroup.family gammaGroup = lit "General")
        /\ (cell <> [] -> ProductGroup.family gammaGroup = cell)).
Proof.
  assert (H1 : parseCSV codeUnitCompare familyDoc = Returns familyCatalog)
    by (vm_compute; reflexivity).
  assert (H2 : In betaGroup familyCatalog) by (vm_compute; auto).
  assert (H3 : In gammaGroup familyCatalog) by (vm_compute; auto).
  assert (H4 : nth_error (parseLine rowBeta1) 1 = Some []) by reflexivity.
  assert (H4b : nth_error (parseLine rowBeta2) 1 = Some (lit "Trim"))
    by reflexivity.
  assert (H4g : nth_error (parseLine rowGamma1) 1 = Some (lit "Floor"))
    by reflexivity.
  assert (H5 : ProductGroup.family betaGroup = lit "General") by reflexivity.
  assert (H6 : ProductGroup.family gammaGroup = lit "Floor") by reflexivity.
  exact (conj H1 (conj H2 (conj H3 (conj H4 (conj H4b (conj H4g (conj H5 (conj H6
    (conj
      (@C8_group_family codeUnitCompare familyDoc familyCatalog betaGroup H1 H2)
      (@C8_group_family codeUnitCompare familyDoc familyCatalog gammaGroup
         H1 H3)))))))))).
Defined.

(** In [familyDoc] the second row of Gamma has no family: its variant has
    the family [General] in a group of family [Floor]; the second row of
    Beta has the family [Trim] in a group of family [General]. *)
Lemma C9_variant_family_witness :
  parseCSV codeUnitCompare familyDoc = Returns familyCatalog
  /\ In (variantOf (parseLine rowGamma2)) (variants gammaGroup)
  /\ nth_error (parseLine rowGamma2) 1 = Some []
  /\ ProductVariant.family (variantOf (parseLine rowGamma2)) = lit "General"
  /\ ProductGroup.family gammaGroup = lit "Floor"
  /\ In (variantOf (parseLine rowBeta2)) (variants betaGroup)
  /\ ProductVariant.family (variantOf (parseLine rowBeta2)) = lit "Trim"
  /\ ProductGroup.family betaGroup = lit "General"
  /\ (forall g v, In g familyCatalog -> In v (variants g) ->
        exists own cell,
          find (fun r => jsstring_eqb (parentNameOf r) (parentName g)
                         && jsstring_eqb (skuOf r) (sku v))
               (documentRows familyDoc) = Some own
          /\ nth_error own 1 = Some cell
          /\ (cell = [] -> ProductVariant.family v = lit "General")
          /\ (cell <> [] -> ProductVariant.family v = cell))
  /\ (exists g v opener ownCell openerCell,
        In g familyCatalog /\ In v (variants g)
        /\ sku v = skuOf (parseLine rowGamma2)
        /\ find (fun r => jsstring_eqb (parentNameOf r) (parentName g))
                (documentRows familyDoc) = Some opener
        /\ nth_error (parseLine rowGamma2) 1 = Some ownCell
        /\ nth_error opener 1 = Some openerCell
        /\ (ownCell = [] -> ProductVariant.family v = lit "General")
        /\ (ownCell <> [] -> ProductVariant.family v = ownCell)
        /\ (ProductVariant.family v = ProductGroup.family g <->
            ownCell = openerCell
            \/ (ownCell = [] /\ openerCell = lit "General")
            \/ (ownCell = lit "General" /\ openerCell = []))).
Proof.
  assert (H1 : parseCSV codeUnitCompare familyDoc = Returns familyCatalog)
    by (vm_compute; reflexivity).
  assert (H2 : In (variantOf (parseLine rowGamma2)) (variants gammaGroup))
    by (vm_compute; auto).
  assert (H3 : nth_error (parseLine rowGamma2) 1 = Some []) by reflexivity.
  assert (H4 : ProductVariant.family (variantOf (parseLine rowGamma2)) = lit "General")
    by reflexivity.
  assert (H5 : ProductGroup.family gammaGroup = lit "Floor") by reflexivity.
  assert (H6 : In (variantOf (parseLine rowBeta2)) (variants betaGroup))
    by (vm_compute; auto).
  assert (H7 : ProductVariant.family (variantOf (parseLine rowBeta2)) = lit "Trim")
    by reflexivity.
  assert (H8 : ProductGroup.family betaGroup = lit "General") by reflexivity.
  assert (F : find (fun r => jsstring_eqb (parentNameOf r)
                               (parentNameOf (parseLine rowGamma2))
                             && jsstring_eqb (skuOf r) (skuOf (parseLine rowGamma2)))
                   (documentRows familyDoc) = Some (parseLine rowGamma2))
    by (vm_compute; reflexivity).
  pose proof (@C9_variant_family codeUnitCompare familyDoc familyCatalog H1) as [A B].
  exact (conj H1 (conj H2 (conj H3 (conj H4 (conj H5 (conj H6 (conj H7 (conj H8
    (conj A (B (parseLine rowGamma2) F)))))))))).
Defined.

(** * Further properties *)

(** ** The tokenizer *)

(** Characters that are neither quotes nor, outside quotes, commas are
    appended to the field being read. *)
Lemma parseLine_loop_run (f rest cur : jsstring) (q : bool) (result : list jsstring) :
  ~ In DQUOTE f -> (q = true \/ ~ In COMMA f) ->
  parseLine_loop (f ++ rest) cur q result = parseLine_loop rest (cur ++ f) q result.
Proof.
  revert cur. induction f as [|c f IH]; intros cur NQ NC; simpl.
  - now rewrite app_nil_r.
  - assert (Ascii.eqb c DQUOTE = false) as ->
      by (apply Ascii.eqb_neq; intro; subst; apply NQ; now left).
    assert (Ascii.eqb c COMMA && negb q = false) as ->.
    { destruct NC as [->|NC]; [apply andb_false_r|].
      apply andb_false_intro1, Ascii.eqb_neq. intro; subst; apply NC; now left. }
    rewrite IH.
    + now rewrite <- app_assoc.
    + intro H; apply NQ; now right.
    + destruct NC as [?|NC]; [now left|]. right. intro H; apply NC; now right.
Qed.

Lemma parseLine_loop_comma (rest cur : jsstring) (result : list jsstring) :
  parseLine_loop (COMMA :: rest) cur false result
  = parseLine_loop rest [] false (result ++ [trim cur]).
Proof. reflexivity. Qed.

Lemma joinWith_cons (sep p : jsstring) (q : jsstring) (rest : list jsstring) :
  joinWith sep (p :: q :: rest) = p ++ sep ++ joinWith sep (q :: rest).
Proof. reflexivity. Qed.

Lemma parseLine_loop_join (fields : list jsstring) (result : list jsstring) :
  fields <> [] ->
  Forall (fun f => ~ In DQUOTE f /\ ~ In COMMA f) fields ->
  parseLine_loop (joinWith [COMMA] fields) [] false result
  = result ++ map trim fields.
Proof.
  revert result. induction fields as [|f fields IH]; intros result NE F; [congruence|].
  inversion F as [|? ? [NQ NC] F']; subst.
  destruct fields as [|g fields].
  - simpl joinWith. rewrite <- (app_nil_r f) at 1.
    rewrite parseLine_loop_run by tauto. reflexivity.
  - rewrite joinWith_cons, parseLine_loop_run by tauto.
    simpl app at 1. rewrite parseLine_loop_comma, IH by (congruence || assumption).
    now rewrite <- app_assoc.
Qed.

Lemma parseLine_loop_escaped (f rest cur : jsstring) (result : list jsstring) :
  match rest with c :: _ => c <> DQUOTE | [] => True end ->
  parseLine_loop
    (flat_map (fun c => if Ascii.eqb c DQUOTE then [DQUOTE; DQUOTE] else [c]) f
     ++ DQUOTE :: rest) cur true result
  = parseLine_loop rest (cur ++ f) false result.
Proof.
  intro R. revert cur. induction f as [|c f IH]; intro cur.
  - simpl. rewrite app_nil_r. destruct rest as [|c rest]; [reflexivity|].
    apply Ascii.eqb_neq in R. now rewrite R.
  - cbn [flat_map]. destruct (Ascii.eqb c DQUOTE) eqn:E.
    + apply Ascii.eqb_eq in E. subst c. simpl. rewrite IH.
      f_equal. now rewrite <- app_assoc.
    + simpl. rewrite E. simpl. rewrite andb_false_r, IH.
      f_equal. now rewrite <- app_assoc.
Qed.

Lemma parseLine_loop_quoted (f rest : jsstring) (result : list jsstring) :
  match rest with c :: _ => c <> DQUOTE | [] => True end ->
  parseLine_loop (quoteField f ++ rest) [] false result
  = parseLine_loop rest f false result.
Proof.
  intro R. unfold quoteField. cbn [app].
  rewrite <- app_assoc. cbn [app].
  change (parseLine_loop (DQUOTE :: ?l) [] false result)
    with (parseLine_loop l [] true result).
  now rewrite parseLine_loop_escaped.
Qed.

Lemma parseLine_loop_encoded (f rest : jsstring) (result : list jsstring) :
  match rest with c :: _ => c <> DQUOTE | [] => True end ->
  parseLine_loop (encodeField f ++ rest) [] false result
  = parseLine_loop rest f false result.
Proof.
  intro R. unfold encodeField.
  destruct (existsb _ f) eqn:E; [now apply parseLine_loop_quoted|].
  apply parseLine_loop_run.
  - intro H. apply (existsb_false_In _ _ DQUOTE E) in H.
    cbn in H. discriminate.
  - right. intro H. apply (existsb_false_In _ _ COMMA E) in H.
    cbn in H. discriminate.
Qed.

Lemma parseLine_loop_encoded_join (fields : list jsstring) (result : list jsstring) :
  fields <> [] ->
  parseLine_loop (joinWith [COMMA] (map encodeField fields)) [] false result
  = result ++ map trim fields.
Proof.
  revert result. induction fields as [|f fields IH]; intros result NE; [congruence|].
  destruct fields as [|g fields].
  - simpl joinWith. rewrite <- (app_nil_r (encodeField f)).
    now rewrite parseLine_loop_encoded.
  - cbn [map]. rewrite joinWith_cons. cbn [app].
    rewrite parseLine_loop_encoded by (unfold COMMA, DQUOTE; discriminate).
    rewrite parseLine_loop_comma.
    change (encodeField g :: map encodeField fields) with (map encodeField (g :: fields)).
    rewrite IH by congruence. now rewrite <- app_assoc.
Qed.

(** X1.  Rejoining and tokenizing: fields without comma or quote, joined
    by commas, are read back trimmed, and as they are when they carry no
    white space at their ends. *)
Theorem parseLine_join (fields : list jsstring) :
  fields <> [] ->
  Forall (fun f => ~ In DQUOTE f /\ ~ In COMMA f) fields ->
  parseLine (joinWith [COMMA] fields) = map trim fields
  /\ (Forall (fun f => isTrimmed f = true) fields ->
      parseLine (joinWith [COMMA] fields) = fields).
Proof.
  intros NE F. unfold parseLine. rewrite parseLine_loop_join by assumption.
  split; [reflexivity|]. intro T. simpl.
  rewrite <- (map_id fields) at 2. apply map_ext_in.
  intros f Hf. rewrite Forall_forall in T. now apply isTrimmed_trim, T.
Qed.

(** X2.  Quoting round trip: whatever the fields hold (commas, quotes,
    line feeds), writing each between quotes when it holds a comma or a
    quote, its quotes doubled, and joining by commas gives a line that is
    read back as these fields, trimmed. *)
Theorem parseLine_encode (fields : list jsstring) :
  fields <> [] ->
  parseLine (joinWith [COMMA] (map encodeField fields)) = map trim fields.
Proof. intro NE. unfold parseLine. now rewrite parseLine_loop_encoded_join. Qed.

(** X3.  A quote that is never closed takes the rest of the line, commas
    included, into the field it opened. *)
Theorem parseLine_unterminated (before rest : jsstring) :
  ~ In DQUOTE before -> ~ In COMMA before -> ~ In DQUOTE rest ->
  parseLine (before ++ DQUOTE :: rest) = [trim (before ++ rest)].
Proof.
  intros NQ NC NR. unfold parseLine.
  rewrite parseLine_loop_run by tauto. cbn [app].
  assert (parseLine_loop (DQUOTE :: rest) before false []
          = parseLine_loop rest before true []) as ->.
  { simpl. now destruct rest. }
  rewrite <- (app_nil_r rest) at 1. rewrite parseLine_loop_run by tauto.
  reflexivity.
Qed.

Lemma parseLine_loop_bounds (n : nat) :
  forall line, List.length line <= n ->
  forall cur q result,
    S (List.length result) <= List.length (parseLine_loop line cur q result)
    /\ List.length (parseLine_loop line cur q result)
       <= S (List.length result) + count_occ ascii_dec line COMMA.
Proof.
  induction n as [|n IH]; intros [|c rest] L cur q result;
    try (simpl in L; lia);
    try (simpl; rewrite length_app; simpl; lia).
  simpl in L. cbn [parseLine_loop count_occ].
  destruct (Ascii.eqb c DQUOTE) eqn:Q.
  - apply Ascii.eqb_eq in Q. subst c.
    destruct (ascii_dec DQUOTE COMMA) as [E|_]; [discriminate E|].
    destruct q; [destruct rest as [|c' rest']|]; try (apply IH; simpl; lia).
    destruct (Ascii.eqb c' DQUOTE) eqn:Q'.
    + apply Ascii.eqb_eq in Q'. subst c'. cbn [count_occ].
      destruct (ascii_dec DQUOTE COMMA) as [E|_]; [discriminate E|].
      apply IH. simpl in L. lia.
    + apply IH. simpl in *. lia.
  - destruct (Ascii.eqb c COMMA) eqn:C; cbn [andb].
    + apply Ascii.eqb_eq in C. subst c.
      destruct (ascii_dec COMMA COMMA) as [_|N]; [|congruence].
      destruct q; cbn [negb].
      * destruct (IH rest ltac:(lia) (cur ++ [COMMA]) true result). lia.
      * destruct (IH rest ltac:(lia) [] false (result ++ [trim cur])) as [A B].
        rewrite length_app in A, B. simpl in A, B. lia.
    + apply Ascii.eqb_neq in C.
      destruct (ascii_dec c COMMA) as [E|_]; [congruence|].
      apply IH. lia.
Qed.

Lemma parseLine_loop_plain (line cur : jsstring) (result : list jsstring) :
  ~ In DQUOTE line ->
  List.length (parseLine_loop line cur false result)
  = S (List.length result) + count_occ ascii_dec line COMMA.
Proof.
  revert cur result. induction line as [|c rest IH]; intros cur result NQ.
  - simpl. rewrite length_app. simpl. lia.
  - cbn [parseLine_loop count_occ].
    assert (Ascii.eqb c DQUOTE = false) as ->
      by (apply Ascii.eqb_neq; intro; subst; apply NQ; now left).
    assert (NQ' : ~ In DQUOTE rest) by (intro; apply NQ; now right).
    destruct (Ascii.eqb c COMMA) eqn:C; cbn [andb negb].
    + apply Ascii.eqb_eq in C. subst c.
      destruct (ascii_dec COMMA COMMA) as [_|N]; [|congruence].
      rewrite IH by assumption. rewrite length_app. simpl. lia.
    + apply Ascii.eqb_neq in C.
      destruct (ascii_dec c COMMA) as [E|_]; [congruence|].
      now apply IH.
Qed.

(** X4.  A line always gives at least one field and at most one more
    than it has commas, exactly that many when it has no quote; every
    field comes without white space at its ends. *)
Theorem parseLine_fields (line : jsstring) :
  1 <= List.length (parseLine line)
       <= S (count_occ ascii_dec line COMMA)
  /\ (~ In DQUOTE line ->
      List.length (parseLine line) = S (count_occ ascii_dec line COMMA))
  /\ Forall (fun f => isTrimmed f = true) (parseLine line).
Proof.
  unfold parseLine. split; [|split].
  - destruct (@parseLine_loop_bounds (List.length line) line (le_n _) [] false []) as [A B].
    simpl in A, B. lia.
  - intro NQ. now rewrite parseLine_loop_plain.
  - eapply Forall_impl; [|apply (parseLine_trimmed line)].
    intros f [raw ->]. apply trim_isTrimmed.
Qed.
(** ** Lines *)

Lemma splitLines_from_run (l rest cur : jsstring) :
  ~ In LF l -> last l LF <> CR ->
  splitLines_from cur (l ++ rest) = splitLines_from (cur ++ l) rest.
Proof.
  revert cur. induction l as [|c l IH]; intros cur NL NC.
  - now rewrite app_nil_r.
  - assert (NL' : ~ In LF l) by (intro; apply NL; now right).
    assert (Ascii.eqb c LF = false) as E
      by (apply Ascii.eqb_neq; intro; subst; apply NL; now left).
    assert (Step : splitLines_from cur ((c :: l) ++ rest)
                   = splitLines_from (cur ++ [c]) (l ++ rest)).
    { cbn [app splitLines_from]. rewrite E.
      destruct (Ascii.eqb c CR) eqn:R; [|reflexivity].
      destruct l as [|c' l'].
      - apply Ascii.eqb_eq in R. subst c. simpl in NC. congruence.
      - cbn [app].
        assert (Ascii.eqb c' LF = false) as ->
          by (apply Ascii.eqb_neq; intro; subst; apply NL'; now left).
        reflexivity. }
    rewrite Step, IH.
    + now rewrite <- app_assoc.
    + exact NL'.
    + destruct l; [simpl; unfold LF, CR; discriminate | exact NC].
Qed.

Lemma splitLines_from_last (l cur : jsstring) :
  ~ In LF l -> last l LF <> CR -> splitLines_from cur l = [cur ++ l].
Proof.
  intros NL NC. pose proof (splitLines_from_run l [] cur NL NC) as H.
  now rewrite app_nil_r in H.
Qed.

Lemma splitLines_from_join (sep : jsstring) (lines : list jsstring) (cur : jsstring) :
  sep = [LF] \/ sep = [CR; LF] ->
  Forall (fun l => ~ In LF l /\ last l LF <> CR) (cur :: lines) ->
  match lines with
  | [] => splitLines_from cur [] = [cur]
  | _ => splitLines_from cur (sep ++ joinWith sep lines) = cur :: lines
  end.
Proof.
  intros S. revert cur. induction lines as [|l lines IH]; intros cur F; [reflexivity|].
  inversion F as [|? ? _ F']; subst.
  inversion F' as [|? ? [NL NC] F'']; subst.
  assert (Sep : forall tail, splitLines_from cur (sep ++ tail)
                             = cur :: splitLines_from [] tail).
  { intro tail. destruct S as [-> | ->]; reflexivity. }
  rewrite Sep. f_equal.
  destruct lines as [|l' lines].
  - simpl joinWith. now rewrite splitLines_from_last.
  - rewrite joinWith_cons, splitLines_from_run by assumption.
    apply (IH l). exact F'.
Qed.

Lemma splitLines_joined (sep : jsstring) (lines : list jsstring) :
  sep = [LF] \/ sep = [CR; LF] ->
  lines <> [] ->
  Forall (fun l => ~ In LF l /\ last l LF <> CR) lines ->
  splitLines (joinWith sep lines) = lines.
Proof.
  intros S NE F. destruct lines as [|l lines]; [congruence|].
  unfold splitLines. inversion F as [|? ? [NL NC] F']; subst.
  destruct lines as [|l' lines].
  - simpl joinWith. now rewrite splitLines_from_last.
  - rewrite joinWith_cons, splitLines_from_run by assumption.
    apply (@splitLines_from_join sep (l' :: lines) l S F).
Qed.

(** X5.  Lines joined by LF, or by CR LF, split back into the same
    lines, when no line holds an LF or ends with a CR. *)
Theorem splitLines_join (lines : list jsstring) :
  lines <> [] ->
  Forall (fun l => ~ In LF l /\ last l LF <> CR) lines ->
  splitLines (joinWith [LF] lines) = lines
  /\ splitLines (joinWith [CR; LF] lines) = lines.
Proof. intros NE F. split; apply splitLines_joined; auto. Qed.

Section Documents.
Variable localeCompare : jsstring -> jsstring -> Z.

Lemma parseCSV_lines (csv csv' : jsstring) :
  skipn 1 (linesOf csv) = skipn 1 (linesOf csv') ->
  parseCSV localeCompare csv = parseCSV localeCompare csv'.
Proof.
  intro E. rewrite !parseCSV_closed. unfold documentRows. now rewrite E.
Qed.

(** X6.  A document that starts and ends with a character that is not
    white space reads the same with CR LF line ends as with LF line
    ends. *)
Theorem parseCSV_line_ends (lines : list jsstring) :
  lines <> [] ->
  Forall (fun l => ~ In LF l /\ last l LF <> CR) lines ->
  isTrimmed (joinWith [LF] lines) = true ->
  isTrimmed (joinWith [CR; LF] lines) = true ->
  linesOf (joinWith [CR; LF] lines) = lines
  /\ linesOf (joinWith [LF] lines) = lines
  /\ parseCSV localeCompare (joinWith [CR; LF] lines)
     = parseCSV localeCompare (joinWith [LF] lines).
Proof.
  intros NE F T1 T2.
  assert (L2 : linesOf (joinWith [CR; LF] lines) = lines).
  { unfold linesOf. rewrite (isTrimmed_trim _ T2). apply splitLines_joined; auto. }
  assert (L1 : linesOf (joinWith [LF] lines) = lines).
  { unfold linesOf. rewrite (isTrimmed_trim _ T1). apply splitLines_joined; auto. }
  repeat split; try assumption. apply parseCSV_lines. now rewrite L1, L2.
Qed.

(** X7.  Line 0 is never read: two documents with the same lines after
    line 0 have the same result. *)
Theorem parseCSV_header_ignored (csv csv' first first' : jsstring)
    (rest : list jsstring) :
  linesOf csv = first :: rest -> linesOf csv' = first' :: rest ->
  parseCSV localeCompare csv = parseCSV localeCompare csv'.
Proof. intros L L'. apply parseCSV_lines. now rewrite L, L'. Qed.

(** X8.  A line after line 0 that is blank, that starts with
    [productlinedescription] in any letter case, or that has fewer than
    11 fields, and is not the sentinel, changes nothing: the document
    without it has the same result. *)
Theorem parseCSV_skipped_line (csv csv' first l : jsstring)
    (before after : list jsstring) :
  linesOf csv = first :: before ++ l :: after ->
  linesOf csv' = first :: before ++ after ->
  isSentinel l = false ->
  trim l = []
  \/ startsWith (toLowerCase (trim l)) (lit "productlinedescription") = true
  \/ List.length (parseLine (trim l)) < 11 ->
  parseCSV localeCompare csv = parseCSV localeCompare csv'.
Proof.
  intros L L' S H. rewrite !parseCSV_closed.
  assert (D : dataRow l = None).
  { unfold dataRow. rewrite S.
    destruct H as [H|[H|H]].
    - now rewrite H.
    - rewrite H. now rewrite orb_true_r.
    - apply Nat.ltb_lt in H. rewrite H. now destruct (isEmpty _ || _). }
  assert (E : documentRows csv = documentRows csv').
  { unfold documentRows. rewrite L, L'. simpl.
    rewrite !dataRows_app. simpl. now rewrite S, D. }
  now rewrite E.
Qed.

(** X9.  [parseCSV] throws exactly when a data row of the document has a
    parent name that is a member of [Object.prototype]; otherwise it
    returns a catalog. *)
Theorem parseCSV_throws_iff (csv : jsstring) :
  (parseCSV localeCompare csv = Throws <->
   exists parts, In parts (documentRows csv)
                 /\ In (parentNameOf parts) objectPrototypeKeys)
  /\ (parseCSV localeCompare csv <> Throws ->
      exists cat, parseCSV localeCompare csv = Returns cat).
Proof.
  rewrite parseCSV_closed. split.
  - destruct (existsb throwingRow (documentRows csv)) eqn:E.
    + split; [intros _|reflexivity].
      apply existsb_exists in E. destruct E as [parts [Hin T]].
      exists parts. split; [exact Hin|].
      unfold throwingRow, isPrototypeKey in T.
      apply existsb_exists in T. destruct T as [k [Hk Ek]].
      apply jsstring_eqb_eq in Ek. now subst k.
    + split; [discriminate|]. intros [parts [Hin Hk]].
      apply (existsb_false_In _ _ parts E) in Hin.
      unfold throwingRow, isPrototypeKey in Hin.
      apply (existsb_false_In _ _ _ Hin) in Hk.
      rewrite jsstring_eqb_refl in Hk. discriminate.
  - destruct (existsb throwingRow (documentRows csv)); [congruence | eauto].
Qed.
End Documents.
(** ** The groups of the catalog *)

Lemma filter_length_split (A : Type) (P : A -> bool) (l : list A) :
  List.length (filter P l) + List.length (filter (fun x => negb (P x)) l)
  = List.length l.
Proof.
  induction l as [|a l IH]; simpl; [reflexivity|].
  destruct (P a); simpl; lia.
Qed.

Lemma filter_length_bound (A : Type) (P : A -> bool) (l : list A) :
  List.length (filter P l) <= List.length l.
Proof. pose proof (filter_length_split P l). lia. Qed.

Lemma firstBy_length (A : Type) (key : A -> jsstring) (l : list A) :
  List.length (firstBy key l) <= List.length l.
Proof.
  induction l as [|a l IH]; simpl; [lia|].
  pose proof (filter_length_bound (fun y => negb (sameKey key a y)) (firstBy key l)).
  lia.
Qed.

Lemma list_sum_perm (l l' : list nat) :
  Permutation l l' -> list_sum l = list_sum l'.
Proof. induction 1; simpl; lia. Qed.

Lemma list_sum_map_ext (A : Type) (f g : A -> nat) (l : list A) :
  (forall x, In x l -> f x = g x) ->
  list_sum (map f l) = list_sum (map g l).
Proof.
  intro H. induction l as [|a l IH]; simpl; [reflexivity|].
  rewrite (H a) by now left. rewrite IH; [reflexivity|].
  intros x Hx. apply H. now right.
Qed.

Lemma list_sum_map_le (A : Type) (f g : A -> nat) (l : list A) :
  (forall x, In x l -> f x <= g x) ->
  list_sum (map f l) <= list_sum (map g l).
Proof.
  intro H. induction l as [|a l IH]; simpl; [lia|].
  pose proof (H a (or_introl eq_refl)).
  assert (list_sum (map f l) <= list_sum (map g l))
    by (apply IH; intros x Hx; apply H; now right).
  lia.
Qed.

Lemma filter_all (A : Type) (P : A -> bool) (l : list A) :
  (forall x, In x l -> P x = true) -> filter P l = l.
Proof.
  intro H. induction l as [|a l IH]; simpl; [reflexivity|].
  rewrite (H a) by now left. f_equal. apply IH. intros x Hx. apply H. now right.
Qed.

Lemma list_sum_cons (a : nat) (l : list nat) : list_sum (a :: l) = a + list_sum l.
Proof. reflexivity. Qed.

(** The classes of the keys partition the list. *)
Lemma firstBy_classes (A : Type) (key : A -> jsstring) (n : nat) :
  forall l, List.length l <= n ->
  list_sum (map (fun x => List.length (filter (sameKey key x) l)) (firstBy key l))
  = List.length l.
Proof.
  induction n as [|n IH]; intros [|a t] L; simpl in L; try lia; try reflexivity.
  cbn [firstBy]. rewrite map_cons, list_sum_cons.
  rewrite firstBy_filter by (intros; now apply other_respects).
  set (t' := filter (fun y => negb (sameKey key a y)) t).
  assert (Ht' : List.length t' <= n)
    by (pose proof (filter_length_bound (fun y => negb (sameKey key a y)) t); unfold t'; lia).
  rewrite (list_sum_map_ext _ (fun x => List.length (filter (sameKey key x) t'))).
  - rewrite (IH t' Ht'). cbn [filter]. unfold sameKey at 1.
    rewrite jsstring_eqb_refl. cbn [List.length].
    pose proof (filter_length_split (sameKey key a) t) as P. unfold t'.
    unfold sameKey in P |- *. lia.
  - intros x Hx. apply firstBy_incl in Hx. unfold t' in Hx.
    apply filter_In in Hx. destruct Hx as [_ Hn].
    cbn [filter]. rewrite sameKey_sym. apply negb_true_iff in Hn. rewrite Hn.
    f_equal. unfold t'. rewrite filter_comm.
    symmetry. apply filter_all. intros y Hy. apply filter_In in Hy.
    destruct Hy as [_ Sy]. apply sameKey_key in Sy. unfold sameKey in Hn |- *.
    now rewrite Sy, Hn.
Qed.

Lemma dataRows_length (lines : list jsstring) :
  List.length (dataRows lines) <= List.length lines.
Proof.
  induction lines as [|l lines IH]; simpl; [lia|].
  destruct (isSentinel l); [simpl; lia|].
  destruct (dataRow l); simpl; lia.
Qed.

Lemma documentRows_trimmed (csv : jsstring) (parts : list jsstring) :
  In parts (documentRows csv) -> Forall (fun f => isTrimmed f = true) parts.
Proof.
  intro H. apply dataRows_In in H. destruct H as [l [_ D]].
  unfold dataRow in D. destruct (isSentinel l); [discriminate|].
  destruct (isEmpty _ || _); [discriminate|].
  destruct (_ <? 11); [discriminate|]. injection D as <-.
  eapply Forall_impl; [|apply parseLine_trimmed].
  intros f [raw ->]. apply trim_isTrimmed.
Qed.

Lemma orString_nonempty (v : option jsstring) (d : jsstring) :
  d <> [] -> orString v d <> [].
Proof. intro H. destruct v as [[|c s]|]; simpl; congruence. Qed.

Section Groups.
Variable localeCompare : jsstring -> jsstring -> Z.

(** X10.  Every group of a returned catalog has at least one variant, a
    parent name and a family that are not empty, and a parent name that
    carries no white space at its ends and is not a member of
    [Object.prototype]. *)
Theorem catalog_group_wellformed (csv : jsstring) (cat : list ProductGroup.t)
    (g : ProductGroup.t) :
  parseCSV localeCompare csv = Returns cat -> In g cat ->
  variants g <> []
  /\ parentName g <> [] /\ ProductGroup.family g <> []
  /\ isTrimmed (parentName g) = true
  /\ ~ In (parentName g) objectPrototypeKeys.
Proof.
  intros P Hg.
  assert (NT : existsb throwingRow (documentRows csv) = false)
    by (rewrite parseCSV_closed in P; destruct (existsb _ _); [discriminate | reflexivity]).
  apply parseCSV_returns in P. subst cat.
  destruct (catalog_group_source _ _ _ Hg) as [opener [F ->]].
  pose proof (find_some _ _ F) as [Hin Hp].
  change (parentName (groupFrom (documentRows csv) opener)) with (parentNameOf opener) in *.
  change (ProductGroup.family (groupFrom (documentRows csv) opener)) with (familyOf opener).
  repeat split.
  - unfold groupFrom. cbn [variants]. intro E. apply map_eq_nil in E.
    assert (Hf : In opener (rowsOfParent (parentNameOf opener) (documentRows csv)))
      by (apply filter_In; split; [exact Hin | apply jsstring_eqb_refl]).
    destruct (rowsOfParent _ _) as [|r rs]; [exact Hf | discriminate E].
  - apply orString_nonempty. discriminate.
  - apply orString_nonempty. discriminate.
  - unfold parentNameOf. pose proof (documentRows_trimmed _ _ Hin) as T.
    destruct (nth_error opener 2) as [[|c s]|] eqn:N; try reflexivity.
    rewrite Forall_forall in T. apply T. now apply nth_error_In in N.
  - intro K. apply (existsb_false_In _ _ opener NT) in Hin.
    unfold throwingRow, isPrototypeKey in Hin.
    apply (existsb_false_In _ _ _ Hin) in K.
    rewrite jsstring_eqb_refl in K. discriminate.
Qed.

(** X11.  Within a group of a returned catalog no two variants have the
    same sku. *)
Theorem catalog_skus_distinct (csv : jsstring) (cat : list ProductGroup.t)
    (g : ProductGroup.t) :
  parseCSV localeCompare csv = Returns cat -> In g cat ->
  NoDup (map sku (variants g)).
Proof.
  intros P Hg. apply parseCSV_returns in P. subst cat.
  apply in_catalogOf in Hg. destruct Hg as [opener [_ ->]].
  unfold groupFrom. cbn [variants]. rewrite map_map.
  apply (firstBy_keys_NoDup skuOf).
Qed.

(** X12.  A returned catalog has no more groups, and over all its groups
    no more variants, than the document has data rows, which are fewer
    than its lines. *)
Theorem catalog_size (csv : jsstring) (cat : list ProductGroup.t) :
  parseCSV localeCompare csv = Returns cat ->
  List.length cat <= List.length (documentRows csv)
  /\ list_sum (map (fun g => List.length (variants g)) cat)
     <= List.length (documentRows csv)
  /\ List.length (documentRows csv) < List.length (linesOf csv).
Proof.
  intro P. apply parseCSV_returns in P. subst cat.
  set (rows := documentRows csv).
  pose proof (catalogOf_perm localeCompare rows) as Perm.
  split; [|split].
  - rewrite (Permutation_length Perm), length_map. apply firstBy_length.
  - rewrite (list_sum_perm (Permutation_map _ Perm)), map_map.
    pose proof (@firstBy_classes _ parentNameOf (List.length rows) rows (le_n _)) as C.
    rewrite <- C. apply list_sum_map_le. intros opener _.
    unfold groupFrom. cbn [variants]. rewrite length_map.
    apply (firstBy_length skuOf).
  - unfold rows, documentRows.
    pose proof (dataRows_length (skipn 1 (linesOf csv))) as D.
    assert (L : 1 <= List.length (linesOf csv)).
    { unfold linesOf, splitLines. rewrite splitLines_from_length. lia. }
    rewrite length_skipn in D. lia.
Qed.
End Groups.
(** ** Searching the catalog *)

Lemma startsWith_spec (s t : jsstring) :
  startsWith s t = true <-> exists post, s = t ++ post.
Proof.
  revert s. induction t as [|p t IH]; intro s; simpl.
  - split; [intros _; now exists s | reflexivity].
  - destruct s as [|c s].
    + split; [discriminate | intros [post E]; discriminate E].
    + rewrite andb_true_iff, Ascii.eqb_eq, IH. split.
      * intros [-> [post ->]]. now exists post.
      * intros [post E]. injection E as -> ->. split; [reflexivity | now exists post].
Qed.

Lemma includes_spec (s t : jsstring) :
  includes s t = true <-> exists pre post, s = pre ++ t ++ post.
Proof.
  induction s as [|c s IH].
  - simpl. rewrite orb_false_r, startsWith_spec. split.
    + intros [post E]. now exists [], post.
    + intros [pre [post E]]. destruct pre; [now exists post | discriminate E].
  - cbn [includes]. rewrite orb_true_iff, startsWith_spec, IH. split.
    + intros [[post E]|[pre [post E]]].
      * now exists [], post.
      * exists (c :: pre), post. now rewrite E.
    + intros [[|c' pre] [post E]].
      * left. now exists post.
      * right. injection E as -> E. now exists pre, post.
Qed.

Lemma includes_within (s t u : jsstring) :
  includes s t = true -> includes t u = true -> includes s u = true.
Proof.
  rewrite !includes_spec. intros [a [b ->]] [c [d ->]].
  exists (a ++ c), (d ++ b). now rewrite <- !app_assoc.
Qed.

Lemma lowerChar_idem (c : ascii) : lowerChar (lowerChar c) = lowerChar c.
Proof. destruct c as [[] [] [] [] [] [] [] []]; reflexivity. Qed.

Lemma lowerChar_whiteSpace (c : ascii) :
  isWhiteSpace (lowerChar c) = isWhiteSpace c.
Proof. destruct c as [[] [] [] [] [] [] [] []]; reflexivity. Qed.

Lemma toLowerCase_idem (s : jsstring) : toLowerCase (toLowerCase s) = toLowerCase s.
Proof.
  unfold toLowerCase. rewrite map_map. apply map_ext. exact lowerChar_idem.
Qed.

Lemma toLowerCase_app (s t : jsstring) :
  toLowerCase (s ++ t) = toLowerCase s ++ toLowerCase t.
Proof. apply map_app. Qed.

Lemma toLowerCase_whiteSpace (s : jsstring) :
  forallb isWhiteSpace (toLowerCase s) = forallb isWhiteSpace s.
Proof.
  induction s as [|c s IH]; simpl; [reflexivity|].
  now rewrite lowerChar_whiteSpace, IH.
Qed.

Lemma trimStart_all_ws (s : jsstring) :
  forallb isWhiteSpace s = true -> trimStart s = [].
Proof.
  intro H. rewrite <- (app_nil_r s). now rewrite trimStart_ws_app.
Qed.

Lemma forallb_rev (A : Type) (P : A -> bool) (l : list A) :
  forallb P (rev l) = forallb P l.
Proof.
  induction l as [|a l IH]; simpl; [reflexivity|].
  rewrite forallb_app, IH. simpl. rewrite andb_true_r. apply andb_comm.
Qed.

Lemma trimEnd_app_ws (s ws : jsstring) :
  forallb isWhiteSpace ws = true -> trimEnd (s ++ ws) = trimEnd s.
Proof.
  intro H. unfold trimEnd. rewrite rev_app_distr, trimStart_ws_app; [reflexivity|].
  now rewrite forallb_rev.
Qed.

Lemma trimStart_nonblank_app (s t : jsstring) :
  trimStart s <> [] -> trimStart (s ++ t) = trimStart s ++ t.
Proof.
  induction s as [|c s IH]; simpl; [congruence|].
  destruct (isWhiteSpace c); [exact IH | reflexivity].
Qed.

(** White space around a text does not change what [trim] leaves. *)
Lemma trim_surrounded (pre s post : jsstring) :
  forallb isWhiteSpace pre = true -> forallb isWhiteSpace post = true ->
  trim (pre ++ s ++ post) = trim s.
Proof.
  intros Hpre Hpost. unfold trim. rewrite trimStart_ws_app by assumption.
  destruct (trimStart s) as [|c u] eqn:E.
  - destruct (trimStart_split s) as [ws [W Es]]. rewrite E, app_nil_r in Es. subst ws.
    rewrite trimStart_all_ws; [reflexivity|].
    now rewrite forallb_app, W, Hpost.
  - rewrite trimStart_nonblank_app by (rewrite E; discriminate).
    rewrite E. now apply trimEnd_app_ws.
Qed.

Lemma trim_blank (s : jsstring) : forallb isWhiteSpace s = true -> trim s = [].
Proof. intro H. unfold trim. now rewrite trimStart_all_ws. Qed.

(** X13.  A search term of white space only, or none, shows every group. *)
Theorem filteredGroups_blank (groups : list ProductGroup.t) (term : jsstring) :
  forallb isWhiteSpace term = true -> filteredGroups groups term = groups.
Proof.
  intro H. unfold filteredGroups.
  rewrite trim_blank; [reflexivity|]. now rewrite toLowerCase_whiteSpace.
Qed.

(** X14.  The search ignores the letter case of the term and the white
    space around it. *)
Theorem filteredGroups_normalized (groups : list ProductGroup.t)
    (term pre post : jsstring) :
  forallb isWhiteSpace pre = true -> forallb isWhiteSpace post = true ->
  filteredGroups groups (pre ++ toLowerCase term ++ post)
  = filteredGroups groups term.
Proof.
  intros Hpre Hpost. unfold filteredGroups.
  rewrite !toLowerCase_app, toLowerCase_idem, trim_surrounded;
    [reflexivity | |]; now rewrite toLowerCase_whiteSpace.
Qed.

Lemma includes_lower_trim (field text pre post : jsstring) :
  field = pre ++ text ++ post ->
  includes (toLowerCase field) (trim (toLowerCase text)) = true.
Proof.
  intros ->. rewrite !toLowerCase_app. apply includes_spec.
  destruct (trim_split (toLowerCase text)) as [a [b [_ [_ E]]]].
  exists (toLowerCase pre ++ a), (b ++ toLowerCase post).
  rewrite E at 1. now rewrite <- !app_assoc.
Qed.

(** X15.  For names and search text of code units U+0000..U+00FF, where
    [toLowerCase] changes each code unit by itself, a group is found by
    any text that occurs in its parent name, in its family, or in the sku
    or the description of one of its variants. *)
Theorem filteredGroups_finds (groups : list ProductGroup.t) (g : ProductGroup.t)
    (text field pre post : jsstring) :
  In g groups ->
  field = parentName g \/ field = ProductGroup.family g
  \/ (exists v, In v (variants g)
                /\ (field = sku v \/ field = ProductVariant.description v)) ->
  field = pre ++ text ++ post ->
  In g (filteredGroups groups text).
Proof.
  intros Hg Hf E. unfold filteredGroups.
  destruct (isEmpty _); [exact Hg|].
  apply filter_In. split; [exact Hg|].
  pose proof (includes_lower_trim _ _ _ E) as I.
  unfold groupMatches. destruct Hf as [->|[->|[v [Hv Hf]]]].
  - now rewrite I.
  - rewrite I. now rewrite orb_true_r.
  - rewrite !orb_true_iff. right. apply existsb_exists. exists v.
    split; [exact Hv|]. destruct Hf as [->| ->]; rewrite I;
      [reflexivity | apply orb_true_r].
Qed.
Lemma ws_prefix (pre a x y : jsstring) (c : ascii) :
  a ++ c :: x = pre ++ y ->
  forallb isWhiteSpace pre = true -> isWhiteSpace c = false ->
  exists a', a = pre ++ a'.
Proof.
  revert a. induction pre as [|p pre IH]; intros a E W C; [now exists a|].
  simpl in W. apply andb_true_iff in W. destruct W as [Wp W].
  destruct a as [|a0 a].
  - simpl in E. injection E as -> _. congruence.
  - simpl in E. injection E as -> E.
    destruct (IH a E W C) as [a' ->]. now exists a'.
Qed.

(** A text without white space at its ends that occurs in [s] occurs in
    [trim s]. *)
Lemma includes_trim (s u : jsstring) :
  u <> [] -> isTrimmed u = true ->
  includes s u = true -> includes (trim s) u = true.
Proof.
  intros NE T I. apply includes_spec in I. destruct I as [a [b E]].
  apply isTrimmed_spec in T. destruct T as [Th Tl].
  destruct (trim_split s) as [pre [post [Wpre [Wpost S]]]].
  destruct u as [|c u']; [congruence|].
  assert (E1 : a ++ c :: (u' ++ b) = pre ++ (trim s ++ post))
    by (rewrite <- S, E; reflexivity).
  destruct (@ws_prefix _ _ _ _ _ E1 Wpre Th) as [a' ->].
  rewrite <- app_assoc in E1. apply app_inv_head in E1.
  destruct (rev (c :: u')) as [|d ur] eqn:R.
  { apply (f_equal (@List.length _)) in R. rewrite length_rev in R. discriminate. }
  assert (Eu : c :: u' = rev ur ++ [d])
    by (rewrite <- (rev_involutive (c :: u')), R; reflexivity).
  assert (E2 : rev b ++ d :: (ur ++ rev a') = rev post ++ rev (trim s)).
  { rewrite <- rev_app_distr, <- E1.
    change (a' ++ c :: u' ++ b) with (a' ++ (c :: u') ++ b).
    rewrite Eu, !rev_app_distr, rev_involutive. simpl.
    now rewrite <- !app_assoc. }
  assert (Wr : forallb isWhiteSpace (rev post) = true) by now rewrite forallb_rev.
  destruct (@ws_prefix _ _ _ _ _ E2 Wr Tl) as [b' Eb].
  assert (Eb' : b = rev b' ++ post).
  { rewrite <- (rev_involutive b), Eb, rev_app_distr. now rewrite rev_involutive. }
  subst b. apply includes_spec. exists a', (rev b').
  change (a' ++ c :: u' ++ rev b' ++ post)
    with (a' ++ (c :: u') ++ rev b' ++ post) in E1.
  rewrite !app_assoc in E1. apply app_inv_tail in E1.
  now rewrite <- E1, <- !app_assoc.
Qed.

Lemma filteredGroups_incl (groups : list ProductGroup.t) (term : jsstring)
    (g : ProductGroup.t) :
  In g (filteredGroups groups term) -> In g groups.
Proof.
  unfold filteredGroups. destruct (isEmpty _); [tauto|].
  intro H. now apply filter_In in H.
Qed.

Lemma groupMatches_within (t u : jsstring) (g : ProductGroup.t) :
  includes t u = true -> groupMatches t g = true -> groupMatches u g = true.
Proof.
  intro I. unfold groupMatches. rewrite !orb_true_iff.
  intros [[H|H]|H].
  - left. left. now apply includes_within with t.
  - left. right. now apply includes_within with t.
  - right. apply existsb_exists in H. destruct H as [v [Hv H]].
    apply existsb_exists. exists v. split; [exact Hv|].
    apply orb_true_iff in H. apply orb_true_iff.
    destruct H as [H|H]; [left|right]; now apply includes_within with t.
Qed.

(** X16.  For search text and names of code units U+0000..U+00FF, where
    [toLowerCase] changes each code unit by itself, a longer search term
    finds no more: a group found by a term that contains [term] is found
    by [term]. *)
Theorem filteredGroups_narrows (groups : list ProductGroup.t)
    (before term after : jsstring) (g : ProductGroup.t) :
  In g (filteredGroups groups (before ++ term ++ after)) ->
  In g (filteredGroups groups term).
Proof.
  intro H. pose proof (filteredGroups_incl _ _ _ H) as Hg.
  unfold filteredGroups in *.
  set (n1 := trim (toLowerCase term)) in *.
  set (n2 := trim (toLowerCase (before ++ term ++ after))) in *.
  destruct n1 as [|c n1'] eqn:N1; [exact Hg|]. cbn [isEmpty].
  assert (I : includes n2 (c :: n1') = true).
  { unfold n2. apply includes_trim; [discriminate | |].
    - rewrite <- N1. apply trim_isTrimmed.
    - rewrite <- N1. rewrite <- (app_nil_r (before ++ term ++ after)).
      rewrite <- !app_assoc. apply includes_lower_trim with (pre := before) (post := after ++ []).
      reflexivity. }
  destruct n2 as [|d n2'] eqn:N2.
  { apply includes_spec in I. destruct I as [a [b E]].
    destruct a; discriminate E. }
  cbn [isEmpty] in H. apply filter_In in H. destruct H as [_ M].
  apply filter_In. split; [exact Hg|]. now apply groupMatches_within with (d :: n2').
Qed.
Lemma StronglySorted_filter (A : Type) (R : A -> A -> Prop) (P : A -> bool)
    (l : list A) :
  StronglySorted R l -> StronglySorted R (filter P l).
Proof.
  induction 1 as [|a l S IH F]; simpl; [constructor|].
  destruct (P a); [|exact IH]. constructor; [exact IH|].
  rewrite Forall_forall in *. intros x Hx. apply F. now apply filter_In in Hx.
Qed.

Lemma NoDup_map_filter (A B : Type) (f : A -> B) (P : A -> bool) (l : list A) :
  NoDup (map f l) -> NoDup (map f (filter P l)).
Proof.
  induction l as [|a l IH]; simpl; intro H; [constructor|].
  inversion H as [|? ? Ha H']; subst.
  destruct (P a); simpl; [|now apply IH].
  constructor; [|now apply IH].
  intro K. apply Ha. apply in_map_iff in K. destruct K as [x [E Hx]].
  apply filter_In in Hx. apply in_map_iff. exists x. tauto.
Qed.

Lemma parseFloat_not_numeric (text rest : jsstring) (c : ascii) :
  trimStart text = c :: rest ->
  isDigit c = false -> ~ In c ["+"; "-"; "."; "I"]%char ->
  parseFloat text = NaN.
Proof.
  intros T D N. unfold parseFloat. rewrite T.
  assert (Hm : Ascii.eqb c "-" = false)
    by (apply Ascii.eqb_neq; intro; subst; apply N; simpl; tauto).
  assert (Hp : Ascii.eqb c "+" = false)
    by (apply Ascii.eqb_neq; intro; subst; apply N; simpl; tauto).
  assert (Hd : Ascii.eqb c "." = false)
    by (apply Ascii.eqb_neq; intro; subst; apply N; simpl; tauto).
  assert (Hi : Ascii.eqb c "I" = false)
    by (apply Ascii.eqb_neq; intro; subst; apply N; simpl; tauto).
  unfold spanSign. rewrite Hm, Hp.
  assert (startsWith (c :: rest) (lit "Infinity") = false) as ->
    by (cbn; now rewrite Hi).
  cbn [spanDigits]. rewrite D, Hd. reflexivity.
Qed.

(** X17.  The weight cell is parsed as it stands: when its first
    character after white space is not a digit, a sign, a dot or [I] (a
    dollar sign, a comma, a letter), the weight is 0. *)
Theorem weight_not_stripped (parts : list jsstring) (cell rest : jsstring)
    (c : ascii) :
  nth_error parts 13 = Some cell ->
  trimStart cell = c :: rest ->
  isDigit c = false -> ~ In c ["+"; "-"; "."; "I"]%char ->
  weight (variantOf parts) = zero.
Proof.
  intros E T D N.
  change (weight (variantOf parts))
    with (orNumber (parseFloat (ToString (nth_error parts 13))) zero).
  rewrite E. cbn [ToString]. now rewrite (parseFloat_not_numeric _ T D N).
Qed.

Lemma firstBy_app (A : Type) (key : A -> jsstring) (a b : list A) :
  exists extra, firstBy key (a ++ b) = firstBy key a ++ extra.
Proof.
  induction a as [|x a [extra IH]]; simpl; [now exists (firstBy key b)|].
  rewrite IH, filter_app. eexists. reflexivity.
Qed.

Lemma find_app_found (A : Type) (P : A -> bool) (a b : list A) (x : A) :
  find P a = Some x -> find P (a ++ b) = Some x.
Proof.
  induction a as [|y a IH]; simpl; [discriminate|].
  destruct (P y); [tauto | exact IH].
Qed.

Section Catalog.
Variable localeCompare : jsstring -> jsstring -> Z.

Lemma catalogOf_variants_nonempty (rows : list (list jsstring)) (g : ProductGroup.t) :
  In g (catalogOf localeCompare rows) -> variants g <> [].
Proof.
  intro Hg. destruct (catalog_group_source _ _ _ Hg) as [opener [F ->]].
  pose proof (find_some _ _ F) as [Hin _].
  unfold groupFrom. cbn [variants]. intro E. apply map_eq_nil in E.
  assert (Hf : In opener (rowsOfParent (parentNameOf opener) rows))
    by (apply filter_In; split; [exact Hin | apply jsstring_eqb_refl]).
  destruct (rowsOfParent _ _) as [|r rs]; [exact Hf | discriminate E].
Qed.

(** X18.  Rows added at the end of a document only add: each group of
    the shorter document is a group of the longer one with the same
    family, its variants followed by the new ones. *)
Theorem catalog_grows (csv csv' : jsstring) (more : list (list jsstring))
    (cat cat' : list ProductGroup.t) (g : ProductGroup.t) :
  documentRows csv' = documentRows csv ++ more ->
  parseCSV localeCompare csv = Returns cat ->
  parseCSV localeCompare csv' = Returns cat' ->
  In g cat ->
  exists g' added,
    In g' cat' /\ parentName g' = parentName g
    /\ ProductGroup.family g' = ProductGroup.family g
    /\ variants g' = variants g ++ added.
Proof.
  intros R P P' Hg.
  apply parseCSV_returns in P. apply parseCSV_returns in P'. subst cat cat'.
  rewrite R. set (rows := documentRows csv) in *.
  destruct (catalog_group_source _ _ _ Hg) as [opener [F ->]].
  destruct (firstBy_app skuOf (rowsOfParent (parentNameOf opener) rows)
              (rowsOfParent (parentNameOf opener) more)) as [extra E].
  exists (groupFrom (rows ++ more) opener), (map variantOf extra).
  repeat split.
  - apply in_catalogOf. exists opener. split; [|reflexivity].
    apply find_in_firstBy with (k := parentNameOf opener).
    apply find_app_found.
    pose proof (find_some _ _ F) as [_ Hp]. apply jsstring_eqb_eq in Hp.
    change (parentName (groupFrom rows opener)) with (parentNameOf opener) in F.
    exact F.
  - unfold groupFrom. cbn [variants]. unfold rowsOfParent in *.
    now rewrite filter_app, E, map_app.
Qed.

Hypothesis localeCompare_total :
  forall a b, (0 < localeCompare a b -> localeCompare b a <= 0)%Z.
Hypothesis localeCompare_trans :
  forall a b c, (localeCompare a b <= 0 -> localeCompare b c <= 0 ->
                 localeCompare a c <= 0)%Z.

(** X19.  What a search shows of a returned catalog is still sorted by
    parent name, without two groups of the same name, and is part of the
    catalog. *)
Theorem filteredGroups_sorted (csv term : jsstring) (cat : list ProductGroup.t) :
  parseCSV localeCompare csv = Returns cat ->
  StronglySorted
    (fun a b => (localeCompare (parentName a) (parentName b) <= 0)%Z)
    (filteredGroups cat term)
  /\ NoDup (map parentName (filteredGroups cat term))
  /\ incl (filteredGroups cat term) cat.
Proof.
  intro P. apply parseCSV_returns in P. subst cat.
  set (rows := documentRows csv).
  assert (S : StronglySorted
                (fun a b => (localeCompare (parentName a) (parentName b) <= 0)%Z)
                (catalogOf localeCompare rows)).
  { unfold catalogOf. apply sortBy_sorted.
    - intros a b. apply localeCompare_total.
    - intros a b c. apply localeCompare_trans. }
  assert (N : NoDup (map parentName (catalogOf localeCompare rows))).
  { apply (Permutation_NoDup (l := map parentNameOf (firstBy parentNameOf rows))).
    - symmetry. rewrite (Permutation_map parentName (catalogOf_perm localeCompare rows)).
      now rewrite map_map.
    - apply firstBy_keys_NoDup. }
  split; [|split].
  - unfold filteredGroups. destruct (isEmpty _); [exact S|].
    now apply StronglySorted_filter.
  - unfold filteredGroups. destruct (isEmpty _); [exact N|].
    now apply NoDup_map_filter.
  - intros g Hg. now apply filteredGroups_incl in Hg.
Qed.
End Catalog.
(** ** The selection *)

Lemma activeVariant_some (g : ProductGroup.t) (i : nat) :
  variants g <> [] ->
  exists v,
    activeVariant (Some g) i = Active v /\ In v (variants g)
    /\ (i < List.length (variants g) -> nth_error (variants g) i = Some v)
    /\ (List.length (variants g) <= i -> nth_error (variants g) 0 = Some v).
Proof.
  intro NE. unfold activeVariant.
  destruct (nth_error (variants g) i) as [v|] eqn:N.
  - exists v. repeat split; try reflexivity.
    + now apply nth_error_In in N.
    + intro L. assert (i < List.length (variants g))
        by (apply nth_error_Some; congruence). lia.
  - apply nth_error_None in N.
    destruct (variants g) as [|v0 vs] eqn:V; [congruence|].
    exists v0. simpl. repeat split; try tauto. intro L. simpl in N. lia.
Qed.

Section Selection.
Variable localeCompare : jsstring -> jsstring -> Z.

(** X20.  For a group of a returned catalog the active variant is always
    a variant of the group: the one at the selected index, or the first
    one when the index is past the end. *)
Theorem activeVariant_of_group (csv : jsstring) (cat : list ProductGroup.t)
    (g : ProductGroup.t) (i : nat) :
  parseCSV localeCompare csv = Returns cat -> In g cat ->
  exists v,
    activeVariant (Some g) i = Active v /\ In v (variants g)
    /\ (i < List.length (variants g) -> nth_error (variants g) i = Some v)
    /\ (List.length (variants g) <= i -> nth_error (variants g) 0 = Some v).
Proof.
  intros P Hg. apply parseCSV_returns in P. subst cat.
  apply activeVariant_some. now apply catalogOf_variants_nonempty in Hg.
Qed.

Lemma mainInterface_nonempty (s : appState) (cat : list ProductGroup.t)
    (g : ProductGroup.t) :
  mainInterface localeCompare s cat -> In g cat -> variants g <> [].
Proof.
  intros [[c [csv E]] P] Hg. rewrite E in P. cbn [productGroups] in P.
  apply parseCSV_returns in P. subst cat.
  now apply catalogOf_variants_nonempty in Hg.
Qed.

(** X21.  Whatever the user does, the selected index stays inside the
    variants of the selected group: the active variant is the variant at
    that index, and [null] only while no group is selected. *)
Theorem selection_in_range (s : appState) :
  reachable localeCompare s ->
  match selectedGroup s with
  | None => activeVariant (selectedGroup s) (selectedVariantIdx s) = NoGroup
  | Some g =>
      exists v,
        nth_error (variants g) (selectedVariantIdx s) = Some v
        /\ activeVariant (selectedGroup s) (selectedVariantIdx s) = Active v
  end.
Proof.
  assert (Inv : forall g i, i < List.length (variants g) ->
            exists v, nth_error (variants g) i = Some v
                      /\ activeVariant (Some g) i = Active v).
  { intros g i L. destruct (nth_error (variants g) i) as [v|] eqn:N.
    - exists v. split; [reflexivity|]. unfold activeVariant. now rewrite N.
    - apply nth_error_None in N. lia. }
  enough (H : reachable localeCompare s ->
              match selectedGroup s with
              | None => True
              | Some g => selectedVariantIdx s < List.length (variants g)
              end).
  { intro R. specialize (H R). destruct (selectedGroup s) as [g|]; [|reflexivity].
    now apply Inv. }
  induction 1 as [stored | s s' R IH St]; [exact I|].
  destruct St as [s cat group M Hg | s cat g i M Sg L | s cat M | s cat value M
                 | s cat confirmed M | s cat g M Sg | s | s text stored]; cbn.
  - apply filteredGroups_incl in Hg.
    pose proof (@mainInterface_nonempty s cat group M Hg) as NE.
    destruct (variants group); [congruence | simpl; lia].
  - rewrite Sg. exact L.
  - exact I.
  - exact IH.
  - destruct confirmed; [exact I | exact IH].
  - exact IH.
  - exact IH.
  - destruct text as [|c text]; [exact IH|]. destruct stored; [exact I | exact IH].
Qed.
End Selection.

(** ** The further properties on the sample documents *)

Lemma not_In_ascii (c : ascii) (s : jsstring) :
  existsb (Ascii.eqb c) s = false -> ~ In c s.
Proof.
  intros E H. apply (existsb_false_In _ _ c E) in H.
  rewrite Ascii.eqb_refl in H. discriminate.
Qed.

Ltac no_char := apply not_In_ascii; reflexivity.

Lemma parseLine_join_witness :
  parseLine (joinWith [COMMA] [lit "Paint"; lit " Interior "; lit "Zeta"])
    = map trim [lit "Paint"; lit " Interior "; lit "Zeta"]
  /\ (Forall (fun f => isTrimmed f = true) [lit "Paint"; lit " Interior "; lit "Zeta"] ->
      parseLine (joinWith [COMMA] [lit "Paint"; lit " Interior "; lit "Zeta"])
      = [lit "Paint"; lit " Interior "; lit "Zeta"]).
Proof.
  apply parseLine_join; [discriminate|].
  repeat constructor; no_char.
Defined.

Lemma parseLine_encode_witness :
  sampleFields <> []
  /\ parseLine (joinWith [COMMA] (map encodeField sampleFields)) = map trim sampleFields.
Proof.
  assert (H : sampleFields <> []) by discriminate.
  exact (conj H (parseLine_encode H)).
Defined.

Lemma parseLine_unterminated_witness :
  parseLine (lit "Zeta" ++ DQUOTE :: lit " large, blue")
  = [trim (lit "Zeta" ++ lit " large, blue")].
Proof. apply parseLine_unterminated; no_char. Defined.

Lemma parseLine_fields_witness :
  ~ In DQUOTE rowZeta1
  /\ List.length (parseLine rowZeta1) = S (count_occ ascii_dec rowZeta1 COMMA).
Proof.
  assert (H : ~ In DQUOTE rowZeta1) by no_char.
  exact (conj H (proj1 (proj2 (parseLine_fields rowZeta1)) H)).
Defined.

Lemma sampleLines_plain :
  Forall (fun l => ~ In LF l /\ last l LF <> CR) sampleLines.
Proof. repeat constructor; try no_char; vm_compute; discriminate. Qed.

Lemma splitLines_join_witness :
  splitLines (joinWith [LF] sampleLines) = sampleLines
  /\ splitLines (joinWith [CR; LF] sampleLines) = sampleLines.
Proof. apply splitLines_join; [discriminate | exact sampleLines_plain]. Defined.

Lemma parseCSV_line_ends_witness :
  linesOf (joinWith [CR; LF] sampleLines) = sampleLines
  /\ linesOf (joinWith [LF] sampleLines) = sampleLines
  /\ parseCSV codeUnitCompare (joinWith [CR; LF] sampleLines)
     = parseCSV codeUnitCompare (joinWith [LF] sampleLines).
Proof.
  apply parseCSV_line_ends;
    [discriminate | exact sampleLines_plain | reflexivity | reflexivity].
Defined.

Lemma parseCSV_header_ignored_witness :
  parseCSV codeUnitCompare catalogDoc = parseCSV codeUnitCompare otherHeaderDoc.
Proof.
  apply (@parseCSV_header_ignored codeUnitCompare catalogDoc otherHeaderDoc
           header sentinelLine [rowZeta1; rowAlpha1; rowZeta2; rowZeta1Again]);
    vm_compute; reflexivity.
Defined.

Lemma parseCSV_skipped_line_witness :
  List.length (parseLine (trim shortRow)) < 11
  /\ parseCSV codeUnitCompare shortRowDoc
     = parseCSV codeUnitCompare shortRowDocWithout.
Proof.
  assert (H : List.length (parseLine (trim shortRow)) < 11) by (vm_compute; lia).
  split; [exact H|].
  apply (@parseCSV_skipped_line codeUnitCompare shortRowDoc shortRowDocWithout
           header shortRow [rowZeta1] [rowAlpha1]);
    [vm_compute; reflexivity | vm_compute; reflexivity | reflexivity
    | right; right; exact H].
Defined.

Lemma parseCSV_throws_iff_witness :
  In (parseLine rowConstructor) (documentRows constructorDoc)
  /\ In (parentNameOf (parseLine rowConstructor)) objectPrototypeKeys
  /\ parseCSV codeUnitCompare constructorDoc = Throws.
Proof.
  assert (H1 : In (parseLine rowConstructor) (documentRows constructorDoc))
    by (vm_compute; auto).
  assert (H2 : In (parentNameOf (parseLine rowConstructor)) objectPrototypeKeys)
    by (vm_compute; auto).
  exact (conj H1 (conj H2
    (proj2 (proj1 (parseCSV_throws_iff codeUnitCompare constructorDoc))
       (ex_intro _ (parseLine rowConstructor) (conj H1 H2))))).
Defined.

Lemma sampleCatalog_returned :
  parseCSV codeUnitCompare catalogDoc = Returns sampleCatalog.
Proof. vm_compute. reflexivity. Qed.

Lemma zetaGroup_in_sampleCatalog : In zetaGroup sampleCatalog.
Proof. vm_compute. auto. Qed.

Lemma catalog_group_wellformed_witness :
  variants zetaGroup <> []
  /\ parentName zetaGroup <> [] /\ ProductGroup.family zetaGroup <> []
  /\ isTrimmed (parentName zetaGroup) = true
  /\ ~ In (parentName zetaGroup) objectPrototypeKeys.
Proof.
  exact (@catalog_group_wellformed codeUnitCompare catalogDoc sampleCatalog
           zetaGroup sampleCatalog_returned zetaGroup_in_sampleCatalog).
Defined.

Lemma catalog_skus_distinct_witness : NoDup (map sku (variants zetaGroup)).
Proof.
  exact (@catalog_skus_distinct codeUnitCompare catalogDoc sampleCatalog
           zetaGroup sampleCatalog_returned zetaGroup_in_sampleCatalog).
Defined.

Lemma catalog_size_witness :
  List.length sampleCatalog <= List.length (documentRows catalogDoc)
  /\ list_sum (map (fun g => List.length (variants g)) sampleCatalog)
     <= List.length (documentRows catalogDoc)
  /\ List.length (documentRows catalogDoc) < List.length (linesOf catalogDoc).
Proof.
  exact (@catalog_size codeUnitCompare catalogDoc sampleCatalog
           sampleCatalog_returned).
Defined.

Lemma filteredGroups_blank_witness :
  filteredGroups sampleCatalog (lit "  ") = sampleCatalog.
Proof. apply filteredGroups_blank. reflexivity. Defined.

Lemma filteredGroups_normalized_witness :
  filteredGroups sampleCatalog (lit " " ++ toLowerCase (lit "ZETA") ++ lit "  ")
  = filteredGroups sampleCatalog (lit "ZETA").
Proof. apply filteredGroups_normalized; reflexivity. Defined.

Lemma filteredGroups_finds_witness :
  In zetaGroup (filteredGroups sampleCatalog (lit "eta")).
Proof.
  apply (@filteredGroups_finds sampleCatalog zetaGroup (lit "eta")
           (parentName zetaGroup) (lit "Z") []);
    [exact zetaGroup_in_sampleCatalog | left; reflexivity | reflexivity].
Defined.

Lemma filteredGroups_narrows_witness :
  In zetaGroup (filteredGroups sampleCatalog (lit "Zeta quart"))
  /\ In zetaGroup (filteredGroups sampleCatalog (lit "quart")).
Proof.
  assert (H : In zetaGroup (filteredGroups sampleCatalog (lit "Zeta " ++ lit "quart" ++ [])))
    by (vm_compute; auto).
  split; [vm_compute; auto|].
  exact (@filteredGroups_narrows sampleCatalog (lit "Zeta ") (lit "quart") [] zetaGroup H).
Defined.

Lemma weight_not_stripped_witness :
  nth_error (parseLine rowDollarWeight) 13 = Some (lit "$5")
  /\ weight (variantOf (parseLine rowDollarWeight)) = zero.
Proof.
  assert (H : nth_error (parseLine rowDollarWeight) 13 = Some (lit "$5")) by reflexivity.
  split; [exact H|].
  apply (@weight_not_stripped (parseLine rowDollarWeight) (lit "$5") (lit "5") "$"%char);
    [exact H | reflexivity | reflexivity | no_char].
Defined.

Lemma catalog_grows_witness :
  exists g' added,
    In g' (catalogOf codeUnitCompare (documentRows catalogDocOnce))
    /\ parentName g' = lit "Zeta"
    /\ ProductGroup.family g' = lit "Interior"
    /\ variants g' = [zetaVariant] ++ added.
Proof.
  apply (@catalog_grows codeUnitCompare oneRowDoc catalogDocOnce
           [parseLine rowAlpha1; parseLine rowZeta2]
           (catalogOf codeUnitCompare (documentRows oneRowDoc))
           (catalogOf codeUnitCompare (documentRows catalogDocOnce))
           (groupFrom (documentRows oneRowDoc) (parseLine rowZeta1)));
    vm_compute; auto.
Defined.

Lemma filteredGroups_sorted_witness :
  StronglySorted
    (fun a b => (codeUnitCompare (parentName a) (parentName b) <= 0)%Z)
    (filteredGroups sampleCatalog (lit "quart"))
  /\ NoDup (map parentName (filteredGroups sampleCatalog (lit "quart")))
  /\ incl (filteredGroups sampleCatalog (lit "quart")) sampleCatalog.
Proof.
  exact (@filteredGroups_sorted codeUnitCompare codeUnitCompare_total
           codeUnitCompare_trans catalogDoc (lit "quart") sampleCatalog
           sampleCatalog_returned).
Defined.

Lemma activeVariant_of_group_witness :
  exists v,
    activeVariant (Some zetaGroup) 7 = Active v /\ In v (variants zetaGroup)
    /\ (7 < List.length (variants zetaGroup) -> nth_error (variants zetaGroup) 7 = Some v)
    /\ (List.length (variants zetaGroup) <= 7 -> nth_error (variants zetaGroup) 0 = Some v).
Proof.
  exact (@activeVariant_of_group codeUnitCompare catalogDoc sampleCatalog
           zetaGroup 7 sampleCatalog_returned zetaGroup_in_sampleCatalog).
Defined.

Lemma selectedState_reachable : reachable codeUnitCompare selectedState.
Proof.
  assert (M : forall s, csvData s = Some catalogDoc ->
                        mainInterface codeUnitCompare s sampleCatalog).
  { intros s E. split.
    - rewrite E. eexists. eexists. cbv. reflexivity.
    - rewrite E. exact sampleCatalog_returned. }
  set (s0 := initialState (Some catalogDoc)).
  set (s1 := handleSelectGroup s0 zetaGroup).
  apply (@AfterStep codeUnitCompare s1).
  - apply (@AfterStep codeUnitCompare s0); [constructor|].
    apply (@SelectGroup codeUnitCompare s0 sampleCatalog zetaGroup);
      [now apply M | vm_compute; auto].
  - apply (@SelectVariant codeUnitCompare s1 sampleCatalog zetaGroup 1);
      [now apply M | reflexivity | vm_compute; lia].
Qed.

Lemma selection_in_range_witness :
  exists v,
    nth_error (variants zetaGroup) 1 = Some v
    /\ activeVariant (Some zetaGroup) 1 = Active v.
Proof.
  exact (@selection_in_range codeUnitCompare selectedState selectedState_reachable).
Defined.
